(** * ytmp3: job registry, progress stream and request validation of [app.py]

    A shallow embedding of the Flask application [app.py]: its helpers
    ([sanitize_filename], [is_youtube_url]), the in-memory job registry
    [JOBS] with the cleanup timer and the one-shot download route, the
    request validation of [/progress] and [/fetch], the progress hook, and
    the producer/consumer pair formed by [run_download] and [generate].

    Python values are modelled as follows.
    - A [str] is the list of its code points ([pystr]); tokens, header values
      and messages, which the program only compares, are Rocq strings.
    - [None] is [None] of an option type, and Python's truthiness test is
      written out at each use ([truthy], [truthy_opt], [truthy_num]).
    - The dictionary [JOBS] is a [gmap] from tokens to job records.
    - The external engine (yt-dlp), the file system and the thread scheduler
      are inputs of the model: an engine outcome, a directory listing, a
      schedule. *)

From Stdlib Require Import QArith.
From stdpp Require Import gmap strings list.

Local Open Scope N_scope.

(** ** Python strings *)

Module PyStr.

(** A code point. *)
Definition char := N.

(** A Python [str]. *)
Definition pystr := list char.

(** The ASCII literal [s] as a Python string. *)
Definition str (s : string) : pystr :=
  map Ascii.N_of_ascii (String.list_ascii_of_string s).

(** [str.isspace] on one code point, which is also the class [\s] of a
    [str] pattern of [re] and the set removed by [str.strip()]:
    U+0009..U+000D, U+001C..U+0020, U+0085, U+00A0, U+1680,
    U+2000..U+200A, U+2028, U+2029, U+202F, U+205F, U+3000. *)
Definition isspace (c : char) : bool :=
  ((9 <=? c) && (c <=? 13)) || ((28 <=? c) && (c <=? 32))
  || (c =? 133) || (c =? 160) || (c =? 5760)
  || ((8192 <=? c) && (c <=? 8202))
  || (c =? 8232) || (c =? 8233) || (c =? 8239) || (c =? 8287)
  || (c =? 12288).

(** The space character, the replacement text of the second [re.sub]. *)
Definition SP : char := 32.

(** [s.lstrip()] *)
Fixpoint lstrip (s : pystr) : pystr :=
  match s with
  | [] => []
  | c :: t => if isspace c then lstrip t else s
  end.

(** [s.rstrip()] *)
Definition rstrip (s : pystr) : pystr := rev (lstrip (rev s)).

(** [s.strip()] *)
Definition strip (s : pystr) : pystr := rstrip (lstrip s).

(** [s.startswith(p)] *)
Fixpoint startswith (p s : pystr) : bool :=
  match p, s with
  | [], _ => true
  | _ :: _, [] => false
  | a :: p', b :: s' => (a =? b) && startswith p' s'
  end.

(** [s.endswith(p)] *)
Definition endswith (p s : pystr) : bool := startswith (rev p) (rev s).

(** [p in s]: [p] occurs in [s] as a substring. *)
Fixpoint contains (p s : pystr) : bool :=
  startswith p s ||
  match s with
  | [] => false
  | _ :: s' => contains p s'
  end.

(** Truthiness of a [str]: the empty string is falsy. *)
Definition truthy (s : pystr) : bool :=
  match s with [] => false | _ :: _ => true end.

(** [a or b] on strings. *)
Definition or_else (a b : pystr) : pystr := if truthy a then a else b.

End PyStr.

Import PyStr.

(** ** [sanitize_filename] *)

(** The character class of the first pattern (line 63): backslash, slash,
    colon, star, question mark, double quote, less-than, greater-than and
    bar, by code point. *)
Definition unsafe_chars : list char := [92; 47; 58; 42; 63; 34; 60; 62; 124].

Definition unsafe (c : char) : bool := existsb (N.eqb c) unsafe_chars.

(** The first [re.sub] (line 63): every maximal run of characters of the
    unsafe class is replaced by the empty string, which removes exactly the
    unsafe characters. *)
Definition re_sub_unsafe (name : pystr) : pystr :=
  filter (fun c => unsafe c = false) name.

(** [re.sub(r'\s+', ' ', name)]: every maximal run of whitespace becomes one
    space. [in_run] tells that the character before [name] was whitespace,
    so that the run's space is already written. *)
Fixpoint re_sub_ws_from (in_run : bool) (name : pystr) : pystr :=
  match name with
  | [] => []
  | c :: t =>
      if isspace c
      then (if in_run then re_sub_ws_from true t else SP :: re_sub_ws_from true t)
      else c :: re_sub_ws_from false t
  end.

Definition re_sub_ws (name : pystr) : pystr := re_sub_ws_from false name.

(** [def sanitize_filename(name, max_length=200)], lines 60-67. *)
Definition sanitize_filename_upto (max_length : nat) (name : pystr) : pystr :=
  if negb (truthy name) then str "untitled"
  else
    let name := re_sub_unsafe name in
    let name := strip (re_sub_ws name) in
    let name :=
      if (max_length <? length name)%nat then rstrip (take max_length name)
      else name in
    or_else name (str "untitled").

(** Every call in [app.py] leaves [max_length] at its default. *)
Definition sanitize_filename (name : pystr) : pystr :=
  sanitize_filename_upto 200 name.

(** The properties the result of [sanitize_filename] is checked against. *)

(** No two adjacent whitespace characters. *)
Fixpoint no_ws_run (s : pystr) : bool :=
  match s with
  | [] => true
  | c :: t =>
      match t with
      | [] => true
      | d :: _ => negb (isspace c && isspace d) && no_ws_run t
      end
  end.

(** The first character, when there is one, is not whitespace. *)
Definition no_leading_ws (s : pystr) : bool :=
  match s with [] => true | c :: _ => negb (isspace c) end.

(** The last character, when there is one, is not whitespace. *)
Definition no_trailing_ws (s : pystr) : bool := no_leading_ws (rev s).

(** No character of the unsafe class. *)
Definition no_unsafe (s : pystr) : bool := forallb (fun c => negb (unsafe c)) s.

(** The string after the two substitutions and [strip()], before the cut. *)
Definition cleaned (name : pystr) : pystr :=
  strip (re_sub_ws (re_sub_unsafe name)).

(** ** Exceptions, case folding, URLs *)

(** A raised exception: its class and [str(exc)]. *)
Inductive exn := Exn (cls msg : string).

Definition str_exc (e : exn) : string := match e with Exn _ msg => msg end.

(** Code without side effects that may raise: the exception or the value. *)
#[global] Instance raising_ret : MRet (sum exn) := λ A x, inr x.
#[global] Instance raising_bind : MBind (sum exn) := λ A B f r,
  match r with
  | inr x => f x
  | inl e => inl e
  end.

(** [str.lower] is a table of the Unicode database; the program uses it only
    to look for ASCII needles. The class keeps the function abstract and
    records the one fact the file search depends on: lowering a name that
    ends in [.mp3] gives a name that ends in [.mp3]. *)
Class Lowering := {
  lower : pystr → pystr;
  lower_mp3 : ∀ s, endswith (str ".mp3") (lower (s ++ str ".mp3")) = true
}.

(** Case folding of the ASCII letters, the rest unchanged. *)
Definition ascii_lower_char (c : char) : char :=
  if (65 <=? c) && (c <=? 90) then c + 32 else c.

Definition ascii_lower (s : pystr) : pystr := map ascii_lower_char s.

(** Case folding of ASCII is a [Lowering]. *)
#[global] Instance ascii_lowering : Lowering.
Proof.
  refine {| lower := ascii_lower |}.
  intros s. unfold endswith, ascii_lower. rewrite map_app, rev_app_distr.
  change (map ascii_lower_char (str ".mp3")) with (str ".mp3").
  generalize (rev (map ascii_lower_char s)).
  generalize (rev (str ".mp3")).
  induction l as [|c p IH]; intros t; [done|].
  simpl. by rewrite N.eqb_refl, IH.
Defined.

Section Urls.
Context `{Lowering}.

(** [def is_youtube_url(url)], lines 53-57. [url] is [None] when the query
    string has no [url] argument. *)
Definition is_youtube_url (url : option pystr) : bool :=
  match url with
  | None => false
  | Some url =>
      if negb (truthy url) then false
      else
        let url := lower url in
        contains (str "youtube.com/watch") url
        || contains (str "youtube.com/playlist") url
        || contains (str "youtu.be/") url
  end.
End Urls.

(** ** The engine's result and the deliverable *)

(** One element of [info['entries']]. *)
Record entry := { entry_title : option pystr; entry_id : option pystr }.

(** The dictionary returned by [ydl.extract_info]. [info_entries] is [None]
    when the key [entries] is absent; an element is [None] when it is falsy
    (the engine leaves [None] for an unavailable item). *)
Record info := {
  info_title : option pystr;
  info_id : option pystr;
  info_entries : option (list (option entry))
}.

(** What [with YoutubeDL(...) as ydl: ydl.extract_info(url, download=True)]
    does when it ends: it raises, or it returns [info] and leaves the files
    [listing] in the temporary directory. A call that never ends is not
    among these outcomes; for a job of [/progress] it is the field
    [j_blocks] of the job. *)
Inductive engine_outcome :=
| EngineRaises (e : exn)
| EngineReturns (i : info) (listing : list pystr).

(** [d.get(key) or default] on strings. *)
Definition get_or (x : option pystr) (default : pystr) : pystr :=
  match x with
  | Some s => or_else s default
  | None => default
  end.

(** [os.path.join(tempdir, name)]. The names joined by the program hold no
    separator (they come out of [sanitize_filename] or of [os.listdir]), so a
    path is kept as its two parts. *)
Record filepath := { dirname : string; basename : pystr }.

(** What the worker hands over: the archive of a playlist with the members
    written to it, or the file of a single item with its sanitized title. *)
Inductive deliverable :=
| Archive (playlist_title : pystr) (members : list pystr)
| Single (title : pystr) (file : pystr).

(** The message of the [RuntimeError] of lines 379 and 558. *)
Definition not_found_message : string :=
  "expected mp3 file not found after download".

Section Deliverable.
Context `{Lowering}.

(** [fname.lower().endswith('.mp3')] *)
Definition is_mp3 (fname : pystr) : bool :=
  endswith (str ".mp3") (lower fname).

(** [os.path.exists(os.path.join(tempdir, name))] against the listing of
    the temporary directory. *)
Definition exists_in (listing : list pystr) (name : pystr) : bool :=
  bool_decide (name ∈ listing).

(** [next((f for f in mp3s if title in f), mp3s[0])] *)
Definition first_match (title : pystr) (mp3s : list pystr) (default : pystr)
  : pystr :=
  match List.find (contains title) mp3s with
  | Some f => f
  | None => default
  end.

(** Lines 369-381 and 548-558: the file of a single item. *)
Definition single_output (title : pystr) (listing : list pystr)
  : exn + pystr :=
  let mp3_name := title ++ str ".mp3" in
  if exists_in listing mp3_name then inr mp3_name
  else
    let mp3s := List.filter is_mp3 listing in
    match mp3s with
    | [] => inl (Exn "RuntimeError" not_found_message)
    | [f] => inr f
    | f0 :: _ :: _ => inr (first_match title mp3s f0)
    end.

(** Lines 356-365 and 530-539: the member written for one playlist entry,
    if any. *)
Definition entry_member (listing : list pystr) (e : entry) : option pystr :=
  let entry_title :=
    sanitize_filename
      (get_or (entry_title e) (get_or (entry_id e) (str "untitled"))) in
  let mp3_name := entry_title ++ str ".mp3" in
  if exists_in listing mp3_name then Some mp3_name
  else
    List.find
      (fun fname =>
         is_mp3 fname
         && ((match entry_id e with
              | Some id => truthy id && contains id fname
              | None => false
              end)
             || contains entry_title fname))
      listing.

(** Lines 353-365: the loop over the entries; a falsy entry is skipped,
    an entry without a file adds nothing. *)
Definition archive_members (listing : list pystr)
    (entries : list (option entry)) : list pystr :=
  omap (fun oe => oe ≫= entry_member listing) entries.

(** Lines 349-381 (the same statements stand at lines 523-558): the final
    deliverable from the engine's [info] and the directory listing. The
    writes to the archive ([ZipFile], [zipf.write]) are taken to go
    through. *)
Definition prepare_deliverable (i : info) (listing : list pystr)
  : exn + deliverable :=
  match info_entries i with
  | Some (e :: es) =>
      let playlist_title :=
        sanitize_filename (get_or (info_title i) (str "playlist")) in
      inr (Archive playlist_title (archive_members listing (e :: es)))
  | _ =>
      let title :=
        sanitize_filename
          (get_or (info_title i) (get_or (info_id i) (str "video"))) in
      match single_output title listing with
      | inl e => inl e
      | inr f => inr (Single title f)
      end
  end.

(** The part of lines 344-394 after the engine call: the deliverable, or
    the exception that reaches [except Exception]. *)
Definition engine_result (o : engine_outcome) : exn + deliverable :=
  match o with
  | EngineRaises e => inl e
  | EngineReturns i listing => prepare_deliverable i listing
  end.
End Deliverable.

(** ** The server: job registry, temporary directories, log *)

(** A value of [JOBS]: [{'path': ..., 'filename': ..., 'expires_at': ...}]. *)
Record Job := { path : filepath; filename : pystr; expires_at : Q }.

(** [AUTO_CLEANUP_SECONDS = 10 * 60] *)
Definition AUTO_CLEANUP_SECONDS : Q := 10 * 60.

Inductive level := INFO | ERROR.

(** A record written through [app.logger]: the level, the format string and
    its argument. [app.logger.exception] writes at level [ERROR]. *)
Inductive log_entry := Log (lvl : level) (format arg : string).

(** The state shared by the request threads, the workers and the timers:
    the dictionary [JOBS], the temporary directories that exist, and the
    log. *)
Record server := {
  JOBS : gmap string Job;
  dirs : gset string;
  app_log : list log_entry
}.

Definition set_JOBS (f : gmap string Job → gmap string Job) (s : server) :=
  {| JOBS := f (JOBS s); dirs := dirs s; app_log := app_log s |}.
Definition set_dirs (f : gset string → gset string) (s : server) :=
  {| JOBS := JOBS s; dirs := f (dirs s); app_log := app_log s |}.
Definition add_log (e : log_entry) (s : server) :=
  {| JOBS := JOBS s; dirs := dirs s; app_log := app_log s ++ [e] |}.

(** Code that reads and writes the server state and may raise. *)
Definition M (A : Type) : Type := server → (exn + A) * server.

#[global] Instance M_ret : MRet M := λ A x s, (inr x, s).
#[global] Instance M_bind : MBind M := λ A B f m s,
  match m s with
  | (inr x, s') => f x s'
  | (inl e, s') => (inl e, s')
  end.

Definition raise {A} (e : exn) : M A := λ s, (inl e, s).

(** [try: body / except Exception as e: handler(e)] *)
Definition try_except {A} (body : M A) (handler : exn → M A) : M A := λ s,
  match body s with
  | (inr x, s') => (inr x, s')
  | (inl e, s') => handler e s'
  end.

Definition logger (lvl : level) (format arg : string) : M unit :=
  λ s, (inr (), add_log (Log lvl format arg) s).

(** Whether the operating system lets a directory tree be deleted: an input
    of the model. *)
Inductive rm_outcome := RmOk | RmFails (e : exn).

(** [shutil.rmtree(d, ignore_errors=...)]. A failure (the directory is
    missing, or the system refuses) is raised only when [ignore_errors] is
    false; with [ignore_errors=True] the call returns in silence. A refused
    deletion leaves the directory in place. *)
Definition rmtree (d : string) (ignore_errors : bool) (o : rm_outcome)
  : M unit := λ s,
  let failure e := if ignore_errors then (inr (), s) else (inl e, s) in
  if bool_decide (d ∈ dirs s) then
    match o with
    | RmOk => (inr (), set_dirs (λ ds, ds ∖ {[d]}) s)
    | RmFails e => failure e
    end
  else failure (Exn "FileNotFoundError" "No such file or directory").

(** [tempfile.mkdtemp(prefix='ydl_')] when it goes through; the fresh name
    is an input. A call that raises is the outcome [MkdtempRaises] of the
    start of a [/progress] job. *)
Definition mkdtemp (tempdir : string) : M unit :=
  λ s, (inr (), set_dirs (λ ds, {[tempdir]} ∪ ds) s).

(** [with JOB_LOCK: job = JOBS.pop(token, None)] (lines 36-37, 451-452):
    the job under [token], if any, and the registry without it. *)
Definition JOBS_pop (token : string) : M (option Job) :=
  λ s, (inr (JOBS s !! token), set_JOBS (delete token) s).

(** [with JOB_LOCK: JOBS[token] = job] (lines 384-385). *)
Definition JOBS_put (token : string) (job : Job) : M unit :=
  λ s, (inr (), set_JOBS (insert token job) s).

(** [_cleanup] of [schedule_job_cleanup], lines 35-43: what runs when the
    timer of [token] fires. A job is a non-empty dictionary, hence truthy. *)
Definition _cleanup (token : string) (o : rm_outcome) : M unit :=
  job ← JOBS_pop token;
  match job with
  | Some job =>
      try_except
        (rmtree (dirname (path job)) true o;;
         logger INFO "Auto-cleaned job %s" token)
        (λ _, logger ERROR "Error cleaning job %s" token)
  | None => mret ()
  end.

(** The replies of the routes. *)
Inductive response :=
| Json (status : nat) (error : string)
    (** [jsonify({'error': error}), status] *)
| SendFile (p : filepath) (download_name : pystr)
    (** [send_file(p, as_attachment=True, download_name=...)], status 200 *)
| EventStream (url : pystr)
    (** [Response(stream_with_context(generate()), ...)], status 200 *)
| Page.
    (** [render_template_string(HTML_PAGE)], status 200 *)

Definition status_code (r : response) : nat :=
  match r with
  | Json status _ => status
  | _ => 200%nat
  end.

(** [send_file(p, as_attachment=True, download_name=...)], line 471. The
    file is opened when the call is made, and the call raises when the file
    is gone. The program deletes the file of a job with its directory only,
    so the file is taken to be there exactly when its directory is. *)
Definition send_file (p : filepath) (download_name : pystr) : M response :=
  λ s, if bool_decide (dirname p ∈ dirs s)
       then (inr (SendFile p download_name), s)
       else (inl (Exn "FileNotFoundError" "No such file or directory"), s).

(** [@after_this_request def f(response)]: Flask runs [f] once the view has
    returned, and also once it has raised, on the page with status 500 made
    of the exception. What the view returned or raised is kept. *)
Definition after_this_request {A} (f : M unit) (view : M A) : M A := λ s,
  let '(r, s') := view s in (r, (f s').2).

(** [def download_token(token)], lines 449-471. An exception that leaves
    the view (the one of [send_file]) is answered with status 500 by
    Flask. *)
Definition download_token (token : string) (o : rm_outcome) : M response :=
  job ← JOBS_pop token;
  match job with
  | None => mret (Json 404 "invalid or expired token")
  | Some job =>
      let filepath := path job in
      let filename := or_else (filename job) (basename filepath) in
      after_this_request
        (try_except
           (rmtree (dirname filepath) true o)
           (λ _, logger ERROR "cleanup after download failed" ""))
        (send_file filepath filename)
  end.

(** ** Requests and their validation *)

(** What the views read of a request: [request.args.get('url')] and
    [request.headers.get('X-API-Key')]. *)
Record request := { args_url : option pystr; x_api_key : option string }.

(** Truthiness of an optional Rocq string: [None] and [''] are falsy. *)
Definition truthy_opt (x : option string) : bool :=
  match x with
  | Some s => negb (String.eqb s "")
  | None => false
  end.

(** [if not url] on [request.args.get('url')]. *)
Definition url_missing (url : option pystr) : bool :=
  match url with
  | Some u => negb (truthy u)
  | None => true
  end.

(** Lines 278-283, repeated at lines 483-488: the reply that turns the
    request down, or [None] when the request may go on. [API_KEY] is
    [os.environ.get('API_KEY')]. *)
Definition api_key_check (API_KEY : option string) (req : request)
  : option response :=
  if truthy_opt API_KEY then
    let key := x_api_key req in
    if negb (truthy_opt key) then Some (Json 403 "missing X-API-Key header")
    else if negb (bool_decide (key = API_KEY)) then
      Some (Json 403 "invalid api key")
    else None
  else None.

(** What the operating system and the engine contribute to one request:
    the name [mkdtemp] returns, the engine's outcome, and whether the two
    deletions of [fetch] go through. *)
Record world := {
  w_tempdir : string;
  w_engine : engine_outcome;
  w_rm_on_error : rm_outcome;
  w_rm_after : rm_outcome
}.

Section Routes.
Context `{Lowering}.

(** [def progress_sse()], lines 272-286 and 443: the checks, then the
    streaming response. Nothing of [generate] runs before the response is
    iterated. *)
Definition progress_sse (API_KEY : option string) (req : request)
  : response :=
  let url := args_url req in
  if url_missing url then Json 400 "missing url parameter"
  else
    match api_key_check API_KEY req with
    | Some reply => reply
    | None =>
        if negb (is_youtube_url url) then Json 400 "unsupported url domain"
        else EventStream (default [] url)
    end.

(** The [send_file] calls of lines 540-545 and 560-565. *)
Definition fetch_reply (tempdir : string) (d : deliverable) : response :=
  match d with
  | Archive playlist_title _ =>
      SendFile {| dirname := tempdir; basename := playlist_title ++ str ".zip" |}
               (playlist_title ++ str ".zip")
  | Single title file =>
      SendFile {| dirname := tempdir; basename := file |}
               (title ++ str ".mp3")
  end.

(** An exception of the pure part, raised in [M]. *)
Definition lift {A} (r : exn + A) : M A :=
  match r with
  | inl e => raise e
  | inr x => mret x
  end.

(** [def fetch()], lines 478-570. The [cleanup] registered with
    [after_this_request] runs once the view has returned, on both the
    success and the error path. The [mkdtemp] of line 493, which stands
    before the [try], is taken to go through. *)
Definition fetch (API_KEY : option string) (req : request) (w : world)
  : M response :=
  let url := args_url req in
  if url_missing url then mret (Json 400 "missing url parameter")
  else
    match api_key_check API_KEY req with
    | Some reply => mret reply
    | None =>
        if negb (is_youtube_url url) then
          mret (Json 400 "unsupported url domain")
        else
          let tempdir := w_tempdir w in
          mkdtemp tempdir;;
          reply ← try_except
            (d ← lift (engine_result (w_engine w));
             mret (fetch_reply tempdir d))
            (λ e,
               rmtree tempdir true (w_rm_on_error w);;
               logger ERROR "download error" "";;
               mret (Json 500 (str_exc e)));
          try_except
            (rmtree tempdir false (w_rm_after w))
            (λ e, logger ERROR "cleanup error: %s" (str_exc e));;
          mret reply
    end.

(** The routes of the application. *)
Inductive route := Index | Progress | Fetch | Download (token : string).

(** Flask's dispatch: the view of the route, run with the process-wide
    [API_KEY] and the current [request]. [download_token] reads neither. *)
Definition dispatch (API_KEY : option string) (r : route) (req : request)
    (w : world) : M response :=
  match r with
  | Index => mret Page
  | Progress => mret (progress_sse API_KEY req)
  | Fetch => fetch API_KEY req w
  | Download token => download_token token (w_rm_after w)
  end.
End Routes.

(** ** The registry over time *)

(** What happens to the registry: a worker registers its job (lines
    384-386), the timer armed by [schedule_job_cleanup] fires, a client
    requests [/download/<token>]. *)
Inductive action :=
| Register (token : string) (job : Job)
| TimerFires (token : string) (o : rm_outcome)
| GetDownload (token : string) (o : rm_outcome).

Definition perform (a : action) : M (option response) :=
  match a with
  | Register token job => JOBS_put token job;; mret None
  | TimerFires token o => _cleanup token o;; mret None
  | GetDownload token o => reply ← download_token token o; mret (Some reply)
  end.

(** The state after an action, whether it returned or raised (only a
    download whose file is gone raises, see [perform_returns]). *)
Definition after (a : action) (s : server) : server := (perform a s).2.

Definition run_actions (acts : list action) (s : server) : server :=
  foldl (λ s a, after a s) s acts.

(** The action registers [token]. *)
Definition registers (token : string) (a : action) : Prop :=
  match a with
  | Register t _ => t = token
  | _ => False
  end.

(** The action takes [token]: its first statement is [JOBS.pop(token, None)]. *)
Definition takes (token : string) (a : action) : Prop :=
  match a with
  | TimerFires t _ | GetDownload t _ => t = token
  | Register _ _ => False
  end.

(** What the [JOBS.pop] of a taking action returns in state [s]. *)
Definition popped (a : action) (s : server) : option Job :=
  match a with
  | TimerFires t _ | GetDownload t _ =>
      match (JOBS_pop t s).1 with
      | inr job => job
      | inl _ => None
      end
  | Register _ _ => None
  end.

(** ** Progress events *)

(** The JSON object of an event. *)
Inductive data :=
| Downloading (percent speed eta : option Q) (filename : option pystr)
    (** [{'status': 'downloading', 'percent': ..., 'speed': ..., 'eta': ...,
        'filename': ...}] *)
| StatusNote (status : string)     (** [{'status': status}] *)
| Done (token : string) (filename : option pystr)
    (** [{'token': token, 'filename': filename}] *)
| Failed (error : string).         (** [{'error': error}] *)

(** What [generate] yields: [sse_event(name, data)], or the comment line
    [: keep-alive]. *)
Inductive sse :=
| Event (name : string) (d : data)
| KeepAlive.

(** The payload [d] of a progress callback of the engine; numbers are exact
    rationals, an absent or [None] field is [None]. *)
Record hook_dict := {
  status : option string;
  total_bytes : option Q;
  total_bytes_estimate : option Q;
  downloaded_bytes : option Q;
  speed : option Q;
  eta : option Q;
  hook_filename : option pystr
}.

(** [x or default] on numbers: [None] and zero are falsy. *)
Definition num_or (x : option Q) (default : Q) : Q :=
  match x with
  | Some q => if Qeq_bool q 0 then default else q
  | None => default
  end.

(** Truthiness of an optional number. *)
Definition truthy_num (x : option Q) : bool :=
  match x with
  | Some q => negb (Qeq_bool q 0)
  | None => false
  end.

(** The total byte count a callback makes known: the exact one if it is
    there and not zero, else the estimate if it is there and not zero. *)
Definition known_total (total_bytes total_bytes_estimate : option Q)
  : option Q :=
  if truthy_num total_bytes then total_bytes
  else if truthy_num total_bytes_estimate then total_bytes_estimate
  else None.

(** [a / b], which raises [ZeroDivisionError] when [b] is zero. *)
Definition py_div (a b : Q) : exn + Q :=
  if Qeq_bool b 0 then inl (Exn "ZeroDivisionError" "division by zero")
  else inr (a / b)%Q.

(** The [try] block of [progress_hook], lines 325-339: the events pushed. *)
Definition progress_hook_body (d : hook_dict) : exn + list sse :=
  if bool_decide (status d = Some "downloading") then
    let total := num_or (total_bytes d) (num_or (total_bytes_estimate d) 0) in
    let downloaded := num_or (downloaded_bytes d) 0 in
    percent ←
      (if negb (Qeq_bool total 0)
       then q ← py_div downloaded total; inr (Some (q * 100)%Q)
       else inr None);
    inr [Event "progress"
           (Downloading percent (speed d) (eta d) (hook_filename d))]
  else if bool_decide (status d = Some "finished") then
    inr [Event "progress" (StatusNote "download finished, converting...")]
  else inr [].

(** [def progress_hook(d)], lines 323-341: the events pushed and the records
    logged. *)
Definition progress_hook (d : hook_dict) : list sse * list log_entry :=
  match progress_hook_body d with
  | inr events => (events, [])
  | inl _ => ([], [Log ERROR "progress_hook error" ""])
  end.

(** ** The worker and the generator of one [/progress] request *)

(** How the first statements of [generate] go, lines 293-402. They stand
    outside its [try]: [tempfile.mkdtemp] can raise (no space, no
    permission), and so can [worker.start()] (no thread can be started),
    when the directory is already made. *)
Inductive start_outcome :=
| Started
| MkdtempRaises (e : exn)
| ThreadStartRaises (e : exn).

(** The inputs of one job: the url, the names that [mkdtemp] and [uuid4]
    return, how the start goes, the callbacks the engine makes, whether its
    call then blocks for ever instead of returning or raising, its outcome
    when it does not block, the clock at registration, the exception of
    [schedule_job_cleanup(token)] if arming the timer fails (the [t.start()]
    of line 47), and whether the deletion after a failure goes through. *)
Record job_input := {
  j_url : pystr;
  j_tempdir : string;
  j_token : string;
  j_start : start_outcome;
  j_hooks : list hook_dict;
  j_blocks : bool;
  j_engine : engine_outcome;
  j_now : Q;
  j_timer : option exn;
  j_rm : rm_outcome
}.

(** The dictionary [result] of [generate], line 300. *)
Record result_dict := {
  success : bool;
  final_path : option filepath;
  final_name : option pystr;
  error : option string
}.

(** Where the thread [worker] stands in [run_download]. *)
Inductive worker_pc :=
| WNotStarted
| WEngine (pending : list hook_dict)  (** inside [extract_info] *)
| WFinally                            (** before [finished['done'] = True] *)
| WSignal                             (** before the last [push_event] *)
| WExited.

(** Where the generator [generate] stands. *)
Inductive gen_pc :=
| GCreated        (** not started *)
| GTestFlag       (** at [while not finished['done'] ...] *)
| GTestQueue      (** at [... or event_queue], the flag was read as set *)
| GBody           (** at [with queue_lock], inside the loop *)
| GYielded        (** suspended at a [yield] of the loop *)
| GAfterLoop      (** at [if result['success']] *)
| GYieldedFinal   (** suspended at the [yield] of [done] or [error] *)
| GReturned       (** ran to its end *)
| GClosed         (** closed on [GeneratorExit] *)
| GRaised.        (** ended by an exception of its first statements *)

(** The shared objects of one request and the two threads of control. *)
Record system := {
  srv : server;
  event_queue : list sse;
  finished : bool;
  result : result_dict;
  worker : worker_pc;
  gen : gen_pc;
  stream : list sse       (** what [generate] has yielded, oldest first *)
}.

(** Who moves next: the worker thread, the thread iterating the response,
    the client, who closes the connection, or whoever else works on the
    registry meanwhile: a timer that fires (the one this job has armed, or
    the one of another job), a client that requests a download, the worker
    of another job that registers it. *)
Inductive actor := Worker | Consumer | ClientCloses | Registry (a : action).

#[global] Instance exn_eq_dec : EqDecision exn.
Proof. solve_decision. Defined.
#[global] Instance rm_outcome_eq_dec : EqDecision rm_outcome.
Proof. solve_decision. Defined.
#[global] Instance filepath_eq_dec : EqDecision filepath.
Proof. solve_decision. Defined.
#[global] Instance Q_eq_dec : EqDecision Q.
Proof. solve_decision. Defined.
#[global] Instance Job_eq_dec : EqDecision Job.
Proof. solve_decision. Defined.
#[global] Instance action_eq_dec : EqDecision action.
Proof. solve_decision. Defined.
#[global] Instance actor_eq_dec : EqDecision actor.
Proof. solve_decision. Defined.

Definition initial (s : server) : system := {|
  srv := s;
  event_queue := [];
  finished := false;
  result := {| success := false; final_path := None; final_name := None;
               error := None |};
  worker := WNotStarted;
  gen := GCreated;
  stream := []
|}.

(** [push_event], lines 319-321, for events already formatted. *)
Definition push_events (events : list sse) (st : system) : system := {|
  srv := srv st;
  event_queue := event_queue st ++ events;
  finished := finished st;
  result := result st;
  worker := worker st;
  gen := gen st;
  stream := stream st
|}.

Definition with_srv (f : server → server) (st : system) : system := {|
  srv := f (srv st);
  event_queue := event_queue st;
  finished := finished st;
  result := result st;
  worker := worker st;
  gen := gen st;
  stream := stream st
|}.

Definition with_worker (pc : worker_pc) (st : system) : system := {|
  srv := srv st;
  event_queue := event_queue st;
  finished := finished st;
  result := result st;
  worker := pc;
  gen := gen st;
  stream := stream st
|}.

Definition with_gen (pc : gen_pc) (st : system) : system := {|
  srv := srv st;
  event_queue := event_queue st;
  finished := finished st;
  result := result st;
  worker := worker st;
  gen := pc;
  stream := stream st
|}.

(** [yield x] *)
Definition yield (x : sse) (st : system) : system := {|
  srv := srv st;
  event_queue := event_queue st;
  finished := finished st;
  result := result st;
  worker := worker st;
  gen := gen st;
  stream := stream st ++ [x]
|}.

(** The last event of the worker, line 398. *)
Definition worker_finished_event : sse :=
  Event "progress" (StatusNote "worker finished").

(** [final_name]: the name of the archive (line 367) or of the chosen file
    (line 381). *)
Definition deliverable_name (d : deliverable) : pystr :=
  match d with
  | Archive playlist_title _ => playlist_title ++ str ".zip"
  | Single _ file => file
  end.

Section Job.
Context `{Lowering}.
Variable j : job_input.

(** [except Exception as exc], lines 392-394. *)
Definition worker_except (e : exn) (st : system) : system :=
  {| srv := add_log (Log ERROR "SSE download error" "") (srv st);
     event_queue := event_queue st;
     finished := finished st;
     result := {| success := success (result st);
                  final_path := final_path (result st);
                  final_name := final_name (result st);
                  error := Some (str_exc e) |};
     worker := worker st;
     gen := gen st;
     stream := stream st |}.

(** Lines 348-394: after the engine call the worker prepares the
    deliverable, registers the job, arms its timer and fills [result]; an
    exception on the way is logged and its text recorded. The timer is armed
    after the registration (lines 384-386): when arming raises, the job is in
    the registry and [result] says failure. The timer that was armed fires
    as the action [TimerFires] on the job's token. *)
Definition wrap_up (st : system) : system :=
  match engine_result (j_engine j) with
  | inr d =>
      let name := deliverable_name d in
      let p := {| dirname := j_tempdir j; basename := name |} in
      let job := {| path := p; filename := name;
                    expires_at := (j_now j + AUTO_CLEANUP_SECONDS)%Q |} in
      let registered := with_srv (set_JOBS (insert (j_token j) job)) st in
      match j_timer j with
      | Some e => worker_except e registered
      | None =>
          {| srv := srv registered;
             event_queue := event_queue st;
             finished := finished st;
             result := {| success := true; final_path := Some p;
                          final_name := Some name;
                          error := error (result st) |};
             worker := worker st;
             gen := gen st;
             stream := stream st |}
      end
  | inl e => worker_except e st
  end.

(** One step of [run_download], lines 343-398. A worker whose engine call
    blocks stays where it is. *)
Definition worker_step (st : system) : system :=
  match worker st with
  | WNotStarted => st
  | WEngine (d :: pending) =>
      let '(events, records) := progress_hook d in
      with_worker (WEngine pending)
        (with_srv (λ s, foldl (λ s r, add_log r s) s records)
           (push_events events st))
  | WEngine [] =>
      if j_blocks j then st else with_worker WFinally (wrap_up st)
  | WFinally =>
      {| srv := srv st;
         event_queue := event_queue st;
         finished := true;
         result := result st;
         worker := WSignal;
         gen := gen st;
         stream := stream st |}
  | WSignal => with_worker WExited (push_events [worker_finished_event] st)
  | WExited => st
  end.

(** The event after the loop, lines 421-424. *)
Definition final_event (r : result_dict) : sse :=
  if success r then
    Event "done" (Done (j_token j) (final_name r))
  else
    Event "error" (Failed (default "unknown error"
                             (if truthy_opt (error r) then error r else None))).

(** One step of [generate], lines 292-424, between two points where the
    other thread can be seen to move. *)
Definition gen_step (st : system) : system :=
  match gen st with
  | GCreated =>
      (* lines 293-402: the directory, the token, [worker.start()] *)
      match j_start j with
      | Started =>
          with_gen GTestFlag
            (with_worker (WEngine (j_hooks j))
               (with_srv (λ s, (mkdtemp (j_tempdir j) s).2) st))
      | MkdtempRaises _ => with_gen GRaised st
      | ThreadStartRaises _ =>
          with_gen GRaised (with_srv (λ s, (mkdtemp (j_tempdir j) s).2) st)
      end
  | GTestFlag =>
      if finished st then with_gen GTestQueue st else with_gen GBody st
  | GTestQueue =>
      match event_queue st with
      | _ :: _ => with_gen GBody st
      | [] => with_gen GAfterLoop st
      end
  | GBody =>
      match event_queue st with
      | to_yield :: rest =>
          {| srv := srv st;
             event_queue := rest;
             finished := finished st;
             result := result st;
             worker := worker st;
             gen := GYielded;
             stream := stream st ++ [to_yield] |}
      | [] => with_gen GYielded (yield KeepAlive st)
      end
  | GYielded => with_gen GTestFlag st
  | GAfterLoop => with_gen GYieldedFinal (yield (final_event (result st)) st)
  | GYieldedFinal =>
      if success (result st) then with_gen GReturned st
      else
        with_gen GReturned
          (with_srv (λ s, (rmtree (j_tempdir j) true (j_rm j) s).2) st)
  | GReturned => st
  | GClosed => st
  | GRaised => st
  end.

(** The client goes away: the server closes the generator. A generator
    that was never started just ends; one suspended at a [yield] receives
    [GeneratorExit] there, logs and returns (lines 431-435). While the
    generator runs, the disconnect is not seen; one that has ended stays as
    it is. *)
Definition close_step (st : system) : system :=
  match gen st with
  | GCreated => with_gen GClosed st
  | GYielded | GYieldedFinal =>
      with_gen GClosed
        (with_srv (add_log (Log INFO "SSE client disconnected" "")) st)
  | _ => st
  end.

Definition step (a : actor) (st : system) : system :=
  match a with
  | Worker => worker_step st
  | Consumer => gen_step st
  | ClientCloses => close_step st
  | Registry a => with_srv (after a) st
  end.

(** The system after a schedule, from state [st]. *)
Definition run_from (st : system) (schedule : list actor) : system :=
  foldl (λ st a, step a st) st schedule.

(** The system after a schedule, from the creation of the generator. *)
Definition run (s : server) (schedule : list actor) : system :=
  run_from (initial s) schedule.
End Job.

(** [done] and [error] are the names of the terminal events. *)
Definition is_terminal (e : sse) : bool :=
  match e with
  | Event name _ => bool_decide (name = "done") || bool_decide (name = "error")
  | KeepAlive => false
  end.

(** The number of terminal events of a stream. *)
Definition terminal_count (l : list sse) : nat :=
  length (List.filter is_terminal l).

(** A stream with exactly one terminal event, which is its last event. *)
Definition ends_with_its_only_terminal (l : list sse) : Prop :=
  ∃ body t, l = body ++ [t] ∧ is_terminal t = true
            ∧ forallb (λ e, negb (is_terminal e)) body = true.

(** The generator has stopped: it returned, it was closed or it raised. *)
Definition stream_over (st : system) : bool :=
  match gen st with
  | GReturned | GClosed | GRaised => true
  | _ => false
  end.

(** The events the worker has pushed that [generate] has yielded: the
    stream without the keep-alive lines and the terminal event. *)
Definition delivered (l : list sse) : list sse :=
  List.filter (λ e, match e with
                    | Event _ _ => negb (is_terminal e)
                    | KeepAlive => false
                    end) l.

(** All the events the worker pushes from its start to its exit. *)
Definition pushed_by_worker (j : job_input) : list sse :=
  concat (map (λ d, (progress_hook d).1) (j_hooks j)) ++ [worker_finished_event].

(** ** The event stream of one job *)

(** A list of events without terminal event. *)
Definition terminal_free (l : list sse) : bool :=
  forallb (λ e, negb (is_terminal e)) l.

(** The value of [result] before the worker has finished its [try] block. *)
Definition initial_result : result_dict :=
  {| success := false; final_path := None; final_name := None; error := None |}.

Section Stream.
Context `{Lowering}.
Variable j : job_input.

(** What the [try] block of [run_download] comes to: the deliverable, or
    the exception that reaches [except Exception], from the engine, from
    the search of the file or from arming the timer. *)
Definition try_result : exn + deliverable :=
  match engine_result (j_engine j) with
  | inr d =>
      match j_timer j with
      | Some e => inl e
      | None => inr d
      end
  | inl e => inl e
  end.

(** The value of [result] once the worker has left its [try] block. *)
Definition final_result : result_dict :=
  match try_result with
  | inr d =>
      {| success := true;
         final_path := Some {| dirname := j_tempdir j;
                               basename := deliverable_name d |};
         final_name := Some (deliverable_name d);
         error := None |}
  | inl e =>
      {| success := false; final_path := None; final_name := None;
         error := Some (str_exc e) |}
  end.

(** The terminal event the job's outcome calls for: [done] with the token
    and the file name on success, [error] with the text of the exception
    (or [unknown error] when the text is empty) on failure. *)
Definition outcome_event : sse :=
  match try_result with
  | inr d => Event "done" (Done (j_token j) (Some (deliverable_name d)))
  | inl e =>
      Event "error"
        (Failed (if String.eqb (str_exc e) "" then "unknown error"
                 else str_exc e))
  end.

(** The flag as a function of the worker's position. *)
Definition flag_at (w : worker_pc) : bool :=
  match w with
  | WSignal | WExited => true
  | _ => false
  end.

(** [result] as a function of the worker's position. *)
Definition result_at (w : worker_pc) : result_dict :=
  match w with
  | WNotStarted | WEngine _ => initial_result
  | _ => final_result
  end.

(** The shape of the stream at each position of the generator. *)
Definition stream_shape (g : gen_pc) (l : list sse) : Prop :=
  match g with
  | GYieldedFinal | GReturned =>
      ∃ body, l = body ++ [outcome_event] ∧ terminal_free body = true
  | GClosed =>
      ∃ body, terminal_free body = true
              ∧ (l = body ∨ l = body ++ [outcome_event])
  | _ => terminal_free l = true
  end.

(** What holds in every state the two threads can reach. *)
Definition invariant (st : system) : Prop :=
  terminal_free (event_queue st) = true
  ∧ finished st = flag_at (worker st)
  ∧ result st = result_at (worker st)
  ∧ match gen st with
    | GTestQueue | GAfterLoop => finished st = true
    | _ => True
    end
  ∧ (gen st = GCreated → worker st = WNotStarted ∧ stream st = [])
  ∧ (worker st = WNotStarted →
     gen st = GCreated ∨ gen st = GClosed ∨ gen st = GRaised)
  ∧ (gen st = GRaised →
     worker st = WNotStarted ∧ stream st = [] ∧ j_start j ≠ Started)
  ∧ stream_shape (gen st) (stream st).

(** Steps the worker still has to take. *)
Definition worker_fuel (w : worker_pc) : nat :=
  match w with
  | WNotStarted | WExited => 0
  | WEngine pending => length pending + 3
  | WFinally => 2
  | WSignal => 1
  end.

(** Steps the generator still has to take once the flag is set and the
    worker has exited. *)
Definition gen_fuel (st : system) : nat :=
  let n := length (event_queue st) in
  match gen st with
  | GCreated => 4 * n + 5
  | GTestFlag => 4 * n + 4
  | GTestQueue => 4 * n + 3
  | GBody => match n with O => 6 | S _ => 4 * n + 2 end
  | GYielded => 4 * n + 5
  | GAfterLoop => 2
  | GYieldedFinal => 1
  | GReturned | GClosed | GRaised => 0
  end.
End Stream.

(** ** Sample inputs *)

(** A server with one job, whose directory exists. *)
Definition sample_job : Job :=
  {| path := {| dirname := "/tmp/ydl_1"; basename := str "a.mp3" |};
     filename := str "a.mp3"; expires_at := 600 |}.

Definition sample_server : server :=
  {| JOBS := {[ "tok" := sample_job ]}; dirs := {[ "/tmp/ydl_1" ]};
     app_log := [] |}.

(** A world for the samples: the engine returns one item, whose file is in
    the directory. *)
Definition sample_world : world :=
  {| w_tempdir := "/tmp/ydl_2";
     w_engine :=
       EngineReturns
         {| info_title := Some (str "a"); info_id := None;
            info_entries := None |}
         [str "a.mp3"];
     w_rm_on_error := RmOk;
     w_rm_after := RmOk |}.

(** A job whose engine makes one callback, at the end of the transfer, and
    returns a single item. *)
Definition sample_input : job_input :=
  {| j_url := str "https://youtu.be/x";
     j_tempdir := "/tmp/ydl_3";
     j_token := "tok3";
     j_start := Started;
     j_hooks := [ {| status := Some "finished"; total_bytes := None;
                     total_bytes_estimate := None; downloaded_bytes := None;
                     speed := None; eta := None; hook_filename := None |} ];
     j_blocks := false;
     j_engine := w_engine sample_world;
     j_now := 0;
     j_timer := None;
     j_rm := RmOk |}.

(** The same job on a machine whose disk is full: [mkdtemp] raises. *)
Definition sample_input_disk_full : job_input :=
  {| j_url := j_url sample_input;
     j_tempdir := j_tempdir sample_input;
     j_token := j_token sample_input;
     j_start := MkdtempRaises (Exn "OSError" "No space left on device");
     j_hooks := j_hooks sample_input;
     j_blocks := false;
     j_engine := j_engine sample_input;
     j_now := 0;
     j_timer := None;
     j_rm := RmOk |}.

(** The same job with an engine call that never ends. *)
Definition sample_input_blocked : job_input :=
  {| j_url := j_url sample_input;
     j_tempdir := j_tempdir sample_input;
     j_token := j_token sample_input;
     j_start := Started;
     j_hooks := j_hooks sample_input;
     j_blocks := true;
     j_engine := j_engine sample_input;
     j_now := 0;
     j_timer := None;
     j_rm := RmOk |}.

(** The client leaves after the first keep-alive line. *)
Definition disconnecting_schedule : list actor :=
  [Consumer; Consumer; Consumer; ClientCloses].

(** The worker sets the flag, the generator tests the loop condition while
    the queue is empty, and only then the worker pushes its last event. *)
Definition racing_schedule : list actor :=
  [Consumer;                     (* the generator starts the worker *)
   Worker; Worker;               (* the callback, the end of the engine call *)
   Worker;                       (* finished['done'] = True *)
   Consumer; Consumer; Consumer; Consumer;  (* the callback's event goes out *)
   Consumer; Consumer;           (* flag set and queue empty: the loop ends *)
   Worker;                       (* push_event of 'worker finished' *)
   Consumer; Consumer].          (* the terminal event, the return *)

(** ** Further properties: the vocabulary of their statements *)

(** Every whitespace character is the space character. *)
Definition only_spaces (s : pystr) : bool :=
  forallb (λ c, negb (isspace c) || (c =? SP)) s.

(** A name that [sanitize_filename] has nothing to do on: not empty, at
    most 200 characters, no unsafe character, no whitespace but single
    spaces between other characters. *)
Definition clean_name (s : pystr) : bool :=
  truthy s && (length s <=? 200)%nat && no_unsafe s && only_spaces s
  && no_leading_ws s && no_trailing_ws s && no_ws_run s.

(** The action concerns [token]: it registers it or takes it. *)
Definition touches (token : string) (a : action) : Prop :=
  registers token a ∨ takes token a.

(** A request that passes the three checks of [/progress] and [/fetch]. *)
Definition accepted `{Lowering} (API_KEY : option string) (req : request)
  : Prop :=
  url_missing (args_url req) = false
  ∧ api_key_check API_KEY req = None
  ∧ is_youtube_url (args_url req) = true.

(** The events pushed by the callbacks [ds], in order. *)
Definition hook_events (ds : list hook_dict) : list sse :=
  concat (map (λ d, (progress_hook d).1) ds).

(** The events the worker has still to push at position [w]. *)
Definition remaining (j : job_input) (w : worker_pc) : list sse :=
  match w with
  | WNotStarted => pushed_by_worker j
  | WEngine pending => hook_events pending ++ [worker_finished_event]
  | WFinally | WSignal => [worker_finished_event]
  | WExited => []
  end.

(** The queue is first in, first out: what was delivered, then what waits
    in the queue, then what is still to be pushed, is the list of the
    worker's events; and once the loop is left at most the last event is
    outside the stream. *)
Definition fifo (j : job_input) (st : system) : Prop :=
  delivered (event_queue st) = event_queue st
  ∧ delivered (stream st) ++ event_queue st ++ remaining j (worker st)
    = pushed_by_worker j
  ∧ match gen st with
    | GAfterLoop | GYieldedFinal | GReturned =>
        event_queue st ++ remaining j (worker st) = []
        ∨ event_queue st ++ remaining j (worker st) = [worker_finished_event]
    | _ => True
    end.

(** The job a worker registers for the deliverable [d], lines 384-385. *)
Definition registered_job (j : job_input) (d : deliverable) : Job :=
  {| path := {| dirname := j_tempdir j; basename := deliverable_name d |};
     filename := deliverable_name d;
     expires_at := (j_now j + AUTO_CLEANUP_SECONDS)%Q |}.

(** The worker is past its [try] block. *)
Definition wrapped_up (w : worker_pc) : bool :=
  match w with
  | WFinally | WSignal | WExited => true
  | _ => false
  end.

(** The actor leaves [token] alone: it is not an action of the registry
    that registers or takes it. *)
Definition leaves (token : string) (x : actor) : Prop :=
  match x with
  | Registry a => ¬ touches token a
  | _ => True
  end.

(** The actor belongs to the job (its worker, its generator, its client):
    it is not an action of the registry. *)
Definition of_the_job (x : actor) : Prop :=
  match x with
  | Registry _ => False
  | _ => True
  end.

Section Lifecycle.
Context `{Lowering}.
Variable j : job_input.
Variable s : server.

(** What the registry holds under the token of a job started on the
    server [s], as a function of the worker's position, when everyone else
    leaves the token alone. The job is registered before the timer is
    armed, so it is there also when arming the timer fails. *)
Definition job_at (w : worker_pc) : option Job :=
  if wrapped_up w then
    match engine_result (j_engine j) with
    | inr d => Some (registered_job j d)
    | inl _ => JOBS s !! j_token j
    end
  else JOBS s !! j_token j.

(** The temporary directories of a system started on the server [s], when
    only the job itself acts. *)
Definition dirs_at (st : system) : gset string :=
  match gen st with
  | GCreated => dirs s
  | GRaised =>
      match j_start j with
      | ThreadStartRaises _ => {[j_tempdir j]} ∪ dirs s
      | _ => dirs s
      end
  | GClosed =>
      match worker st with
      | WNotStarted => dirs s
      | _ => {[j_tempdir j]} ∪ dirs s
      end
  | GReturned =>
      if success (result st) then {[j_tempdir j]} ∪ dirs s
      else
        match j_rm j with
        | RmOk => ({[j_tempdir j]} ∪ dirs s) ∖ {[j_tempdir j]}
        | RmFails _ => {[j_tempdir j]} ∪ dirs s
        end
  | _ => {[j_tempdir j]} ∪ dirs s
  end.

(** What the job keeps of the registry. *)
Definition job_kept (st : system) : Prop :=
  JOBS (srv st) !! j_token j = job_at (worker st).

(** What the job keeps of the directories. *)
Definition dirs_kept (st : system) : Prop :=
  match gen st with
  | GYieldedFinal | GReturned => finished st = true
  | _ => True
  end
  ∧ dirs (srv st) = dirs_at st.
End Lifecycle.

(** A terminal event is in the stream only once the flag is set. *)
Definition terminal_after_flag (st : system) : Prop :=
  terminal_free (stream st) = true ∨ finished st = true.

(** * Proofs *)

(** ** [sanitize_filename] is well formed *)

(** *** Facts about stripping *)

Section Strip.

Lemma lstrip_split (s : pystr) :
  ∃ p, s = p ++ lstrip s ∧ forallb isspace p = true.
Proof.
  induction s as [|c t [p [Ht Hp]]]; simpl.
  - by exists [].
  - destruct (isspace c) eqn:Hc.
    + exists (c :: p); simpl. rewrite Hc, Hp. by rewrite <- Ht.
    + by exists [].
Qed.

Lemma lstrip_no_leading_ws (s : pystr) : no_leading_ws (lstrip s) = true.
Proof.
  induction s as [|c t IH]; simpl; [done|].
  destruct (isspace c) eqn:Hc; [done|]. simpl. by rewrite Hc.
Qed.

Lemma rstrip_split (s : pystr) : ∃ q, s = rstrip s ++ q.
Proof.
  destruct (lstrip_split (rev s)) as [p [Hs _]].
  exists (rev p). unfold rstrip.
  rewrite <- rev_app_distr, <- Hs. by rewrite rev_involutive.
Qed.

Lemma rstrip_no_trailing_ws (s : pystr) : no_trailing_ws (rstrip s) = true.
Proof.
  unfold no_trailing_ws, rstrip. rewrite rev_involutive.
  apply lstrip_no_leading_ws.
Qed.

Lemma rstrip_length (s : pystr) : (length (rstrip s) ≤ length s)%nat.
Proof.
  destruct (rstrip_split s) as [q Hq].
  rewrite Hq at 2. rewrite length_app. lia.
Qed.

Lemma no_leading_ws_prefix (p q : pystr) :
  no_leading_ws (p ++ q) = true → no_leading_ws p = true.
Proof. by destruct p. Qed.

Lemma no_ws_run_app (p q : pystr) :
  no_ws_run (p ++ q) = true → no_ws_run p = true ∧ no_ws_run q = true.
Proof.
  induction p as [|c p IH]; [done|].
  destruct p as [|d p].
  - simpl. destruct q; [done|]. intros [_ H]%andb_prop. done.
  - change (no_ws_run ((c :: d :: p) ++ q))
      with (negb (isspace c && isspace d) && no_ws_run ((d :: p) ++ q)).
    intros [Hcd H]%andb_prop. destruct (IH H) as [Hp Hq].
    split; [|done].
    change (negb (isspace c && isspace d) && no_ws_run (d :: p) = true).
    by rewrite Hcd, Hp.
Qed.

Lemma no_unsafe_app (p q : pystr) :
  no_unsafe (p ++ q) = true → no_unsafe p = true ∧ no_unsafe q = true.
Proof. unfold no_unsafe. rewrite forallb_app. apply andb_prop. Qed.

End Strip.

(** *** Facts about the two substitutions *)

Lemma re_sub_unsafe_no_unsafe (name : pystr) :
  no_unsafe (re_sub_unsafe name) = true.
Proof.
  unfold no_unsafe, re_sub_unsafe. apply forallb_forall.
  intros c Hc%list_elem_of_In%list_elem_of_filter. destruct Hc as [Hc _].
  by rewrite Hc.
Qed.

Lemma re_sub_ws_from_no_unsafe (b : bool) (name : pystr) :
  no_unsafe name = true → no_unsafe (re_sub_ws_from b name) = true.
Proof.
  revert b. induction name as [|c t IH]; intros b; [done|].
  simpl. intros [Hc Ht]%andb_prop.
  destruct (isspace c), b; simpl; rewrite ?Hc; simpl; auto.
Qed.

Lemma re_sub_ws_from_shape (b : bool) (name : pystr) :
  no_ws_run (re_sub_ws_from b name) = true
  ∧ (b = true → no_leading_ws (re_sub_ws_from b name) = true).
Proof.
  revert b. induction name as [|c t IH]; intros b; [done|].
  simpl. destruct (isspace c) eqn:Hc.
  - destruct (IH true) as [Hrun Hlead]. destruct b.
    + auto.
    + split; [|done].
      specialize (Hlead eq_refl).
      destruct (re_sub_ws_from true t) as [|d r] eqn:Hr; [done|].
      change (negb (isspace SP && isspace d) && no_ws_run (d :: r) = true).
      rewrite Hrun. simpl in Hlead.
      destruct (isspace d); [done|]. by rewrite andb_false_r.
  - destruct (IH false) as [Hrun _]. split.
    + destruct (re_sub_ws_from false t) as [|d r] eqn:Hr; [done|].
      change (negb (isspace c && isspace d) && no_ws_run (d :: r) = true).
      by rewrite Hc, Hrun.
    + intros _. simpl. by rewrite Hc.
Qed.

Lemma cleaned_shape (name : pystr) :
  no_unsafe (cleaned name) = true ∧ no_ws_run (cleaned name) = true
  ∧ no_leading_ws (cleaned name) = true ∧ no_trailing_ws (cleaned name) = true.
Proof.
  unfold cleaned, strip, re_sub_ws.
  set (a := re_sub_ws_from false (re_sub_unsafe name)).
  assert (Ha : no_unsafe a = true)
    by apply re_sub_ws_from_no_unsafe, re_sub_unsafe_no_unsafe.
  assert (Hr : no_ws_run a = true) by apply re_sub_ws_from_shape.
  destruct (lstrip_split a) as [p [Hp _]].
  destruct (rstrip_split (lstrip a)) as [q Hq].
  rewrite Hp in Ha, Hr.
  apply no_unsafe_app in Ha as [_ Ha]. apply no_ws_run_app in Hr as [_ Hr].
  pose proof (lstrip_no_leading_ws a) as Hl.
  rewrite Hq in Ha, Hr, Hl.
  apply no_unsafe_app in Ha as [Ha _]. apply no_ws_run_app in Hr as [Hr _].
  apply no_leading_ws_prefix in Hl.
  repeat split; auto using rstrip_no_trailing_ws.
Qed.

(** The cut [name[:max_length].rstrip()] keeps the shape. *)
Lemma cut_shape (n : nat) (s : pystr) :
  no_unsafe s = true → no_ws_run s = true → no_leading_ws s = true →
  let r := rstrip (take n s) in
  no_unsafe r = true ∧ no_ws_run r = true ∧ no_leading_ws r = true
  ∧ no_trailing_ws r = true ∧ (length r ≤ n)%nat.
Proof.
  intros Ha Hr Hl r.
  destruct (rstrip_split (take n s)) as [q Hq]. fold r in Hq.
  rewrite <- (take_drop n s), Hq in Ha, Hr, Hl.
  apply no_unsafe_app in Ha as [Ha _]. apply no_unsafe_app in Ha as [Ha _].
  apply no_ws_run_app in Hr as [Hr _]. apply no_ws_run_app in Hr as [Hr _].
  do 2 apply no_leading_ws_prefix in Hl.
  pose proof (rstrip_length (take n s)) as Hlen.
  rewrite length_take in Hlen. subst r.
  repeat split; auto using rstrip_no_trailing_ws. lia.
Qed.

(** C10. For every input string the result of [sanitize_filename] is not
    empty, holds none of the nine unsafe characters, neither starts nor ends
    with whitespace, has no two adjacent whitespace characters, and is at
    most 200 characters long. *)
Theorem sanitize_filename_shape (name : pystr) :
  sanitize_filename name ≠ []
  ∧ no_unsafe (sanitize_filename name) = true
  ∧ no_leading_ws (sanitize_filename name) = true
  ∧ no_trailing_ws (sanitize_filename name) = true
  ∧ no_ws_run (sanitize_filename name) = true
  ∧ (length (sanitize_filename name) ≤ 200)%nat.
Proof.
  unfold sanitize_filename, sanitize_filename_upto.
  destruct (truthy name); simpl negb; cbv iota.
  2: { vm_compute. repeat split; [done | lia]. }
  fold (cleaned name).
  destruct (cleaned_shape name) as (Ha & Hr & Hl & Ht).
  assert (Hdef : ∀ s : pystr,
    no_unsafe s = true → no_leading_ws s = true → no_trailing_ws s = true →
    no_ws_run s = true → (length s ≤ 200)%nat →
    or_else s (str "untitled") ≠ []
    ∧ no_unsafe (or_else s (str "untitled")) = true
    ∧ no_leading_ws (or_else s (str "untitled")) = true
    ∧ no_trailing_ws (or_else s (str "untitled")) = true
    ∧ no_ws_run (or_else s (str "untitled")) = true
    ∧ (length (or_else s (str "untitled")) ≤ 200)%nat).
  { intros [|c s] ? ? ? ? ?.
    - vm_compute. repeat split; [done | lia].
    - by repeat split. }
  destruct (200 <? length (cleaned name))%nat eqn:Hlen.
  - destruct (cut_shape 200 (cleaned name) Ha Hr Hl) as (? & ? & ? & ? & ?).
    by apply Hdef.
  - apply Nat.ltb_ge in Hlen. by apply Hdef.
Qed.

(** C5, as the claim states it: the sample title would sanitize to
    [My Song]. The code removes the colon and the slash without putting a
    space in their place, so the claim fails on its own sample. *)
Lemma sanitize_sample_not_My_Song :
  ¬ (sanitize_filename (str "  My:/Song*?  ") = str "My Song"
     ∧ sanitize_filename (str "") = str "untitled").
Proof. intros [H _]. vm_compute in H. discriminate H. Qed.

(** C5, amended. Sanitizing the sample title yields [MySong]: the unsafe
    characters are deleted, the surrounding whitespace is trimmed; and the
    empty title yields the default name [untitled]. *)
Theorem sanitize_sample :
  sanitize_filename (str "  My:/Song*?  ") = str "MySong"
  ∧ sanitize_filename (str "") = str "untitled".
Proof. split; reflexivity. Qed.

(** ** The file of a single item *)

Section SingleItem.
Context `{Lowering}.

Lemma exact_name_is_candidate (title : pystr) (listing : list pystr) :
  (title ++ str ".mp3") ∈ listing →
  (title ++ str ".mp3") ∈ List.filter is_mp3 listing.
Proof.
  intros Hin. apply list_elem_of_In, filter_In. split.
  - by apply list_elem_of_In.
  - apply lower_mp3.
Qed.

Lemma single_output_cases (title : pystr) (listing : list pystr) :
  ((title ++ str ".mp3") ∈ listing
   ∧ single_output title listing = inr (title ++ str ".mp3"))
  ∨ (((title ++ str ".mp3") ∉ listing)
     ∧ List.filter is_mp3 listing = []
     ∧ single_output title listing = inl (Exn "RuntimeError" not_found_message))
  ∨ (((title ++ str ".mp3") ∉ listing)
     ∧ ∃ f0 rest, List.filter is_mp3 listing = f0 :: rest
       ∧ single_output title listing
         = inr (first_match title (f0 :: rest) f0)).
Proof.
  unfold single_output, exists_in. cbv zeta.
  case_bool_decide as Hin.
  - by left.
  - right. destruct (List.filter is_mp3 listing) as [|f0 [|f1 rest]] eqn:Hf.
    + by left.
    + right. split; [done|]. exists f0, []. split; [done|].
      unfold first_match. simpl. by destruct (contains title f0).
    + right. split; [done|]. by exists f0, (f1 :: rest).
Qed.
End SingleItem.

(** C9, as the claim states it: with no candidate file the job would fail
    with the message [expected output file not found]. The message of the
    code is another one. *)
Lemma not_found_message_is_not_the_claimed_one :
  List.filter is_mp3 [] = []
  ∧ ∃ e, prepare_deliverable
           {| info_title := Some (str "a"); info_id := None;
              info_entries := None |} []
         = inl e
       ∧ str_exc e ≠ "expected output file not found".
Proof.
  split; [reflexivity|].
  exists (Exn "RuntimeError" not_found_message). split; [reflexivity|].
  discriminate.
Qed.

(** C9, amended. For a single item (no [entries], or an empty list of them)
    the file is the one with the exact expected name, the sanitized title
    followed by [.mp3], when it is in the temporary directory; otherwise it
    is chosen among the files whose lowered name ends in [.mp3]: the first
    one whose name contains the title, or the first one when none does. The
    job fails, with the message [expected mp3 file not found after
    download], if and only if the directory holds no such file, and it fails
    with no other exception. *)
Theorem single_item_output `{Lowering} (i : info) (listing : list pystr) :
  info_entries i = None ∨ info_entries i = Some [] →
  let title :=
    sanitize_filename
      (get_or (info_title i) (get_or (info_id i) (str "video"))) in
  let mp3s := List.filter is_mp3 listing in
  ((title ++ str ".mp3") ∈ listing →
   prepare_deliverable i listing = inr (Single title (title ++ str ".mp3")))
  ∧ ((title ++ str ".mp3") ∉ listing →
     ∀ f0 rest, mp3s = f0 :: rest →
       prepare_deliverable i listing
       = inr (Single title (first_match title mp3s f0)))
  ∧ (prepare_deliverable i listing
       = inl (Exn "RuntimeError" not_found_message)
     ↔ mp3s = [])
  ∧ (∀ e, prepare_deliverable i listing = inl e →
          e = Exn "RuntimeError" not_found_message).
Proof.
  intros Hsingle title mp3s.
  assert (Hprep : prepare_deliverable i listing
                  = match single_output title listing with
                    | inl e => inl e
                    | inr f => inr (Single title f)
                    end).
  { unfold prepare_deliverable. by destruct Hsingle as [-> | ->]. }
  rewrite Hprep. subst mp3s.
  destruct (single_output_cases title listing)
    as [[Hin ->] | [(Hout & Hnone & ->) | (Hout & f0 & rest & Hsome & ->)]].
  - pose proof (exact_name_is_candidate title listing Hin) as Hc.
    repeat split; try done.
    intros Hnil. rewrite Hnil in Hc. by apply elem_of_nil in Hc.
  - repeat split; try done.
    + intros _ f0 rest Hsome. by rewrite Hnone in Hsome.
    + by intros e [= <-].
  - rewrite Hsome. repeat split; try done.
    intros _ f0' rest' [= <- <-]. done.
Qed.

(** A directory with two candidates and no file of the exact name. *)
Lemma single_item_output_witness :
  let i := {| info_title := Some (str "My Song"); info_id := None;
              info_entries := None |} in
  let listing := [str "cover.jpg"; str "other.MP3"; str "My Song (live).mp3"] in
  (info_entries i = None ∨ info_entries i = Some [])
  ∧ prepare_deliverable i listing
    = inr (Single (str "My Song") (str "My Song (live).mp3")).
Proof.
  intros i listing. split; [by left|].
  destruct (single_item_output i listing (or_introl eq_refl))
    as (_ & Hfuzzy & _).
  refine (Hfuzzy _ (str "other.MP3") [str "My Song (live).mp3"] eq_refl).
  intros Hin. apply (bool_decide_pack _) in Hin. vm_compute in Hin. exact Hin.
Defined.

(** ** The progress hook *)

Lemma known_total_num_or (tb tbe : option Q) :
  match known_total tb tbe with
  | Some t => num_or tb (num_or tbe 0) = t ∧ Qeq_bool t 0 = false
  | None => Qeq_bool (num_or tb (num_or tbe 0)) 0 = true
  end.
Proof.
  unfold known_total, truthy_num, num_or.
  destruct tb as [t|], tbe as [t'|];
    repeat (match goal with
            | |- context [Qeq_bool ?q 0] =>
                lazymatch q with
                | 0%Q => change (Qeq_bool 0 0) with true
                | _ => destruct (Qeq_bool q 0) eqn:?
                end
            end; simpl); auto.
Qed.

(** C7. The hook never raises, so it never divides by zero. On a callback
    with status [downloading] it pushes one [progress] event whose percent
    is [downloaded / total * 100] when a total (the exact one, else the
    estimate) is known and not zero, and null otherwise. On a callback with
    status [finished] it pushes a [progress] event that carries a status
    note. *)
Theorem progress_hook_percent (d : hook_dict) :
  (∃ events, progress_hook_body d = inr events)
  ∧ (status d = Some "downloading" →
     ∃ percent,
       progress_hook d
       = ([Event "progress"
             (Downloading percent (speed d) (eta d) (hook_filename d))], [])
       ∧ (∀ total,
            known_total (total_bytes d) (total_bytes_estimate d) = Some total →
            ¬ (total == 0)%Q
            ∧ percent
              = Some (num_or (downloaded_bytes d) 0 / total * 100)%Q)
       ∧ (known_total (total_bytes d) (total_bytes_estimate d) = None →
          percent = None))
  ∧ (status d = Some "finished" →
     progress_hook d
     = ([Event "progress" (StatusNote "download finished, converting...")],
        [])).
Proof.
  pose proof (known_total_num_or (total_bytes d) (total_bytes_estimate d)) as Hk.
  unfold progress_hook, progress_hook_body, py_div.
  destruct (known_total (total_bytes d) (total_bytes_estimate d)) as [t|].
  - destruct Hk as [-> Hnz]. rewrite Hnz. simpl.
    split; [case_bool_decide; [|case_bool_decide]; eauto|].
    split.
    + intros Hs. rewrite bool_decide_eq_true_2 by done.
      eexists. split; [done|]. split; [|done].
      intros total [= <-]. split; [|done].
      intros Hz%Qeq_bool_iff. congruence.
    + intros Hs. rewrite bool_decide_eq_false_2 by congruence.
      by rewrite bool_decide_eq_true_2.
  - rewrite Hk. simpl.
    split; [case_bool_decide; [|case_bool_decide]; eauto|].
    split.
    + intros Hs. rewrite bool_decide_eq_true_2 by done.
      eexists. split; [done|]. split; [done|done].
    + intros Hs. rewrite bool_decide_eq_false_2 by congruence.
      by rewrite bool_decide_eq_true_2.
Qed.

(** A callback at 512 of 2048 estimated bytes: 25 percent. *)
Lemma progress_hook_percent_witness :
  let d := {| status := Some "downloading"; total_bytes := None;
              total_bytes_estimate := Some 2048%Q;
              downloaded_bytes := Some 512%Q; speed := None; eta := None;
              hook_filename := None |} in
  status d = Some "downloading"
  ∧ known_total (total_bytes d) (total_bytes_estimate d) = Some 2048%Q
  ∧ ∃ percent,
      progress_hook d = ([Event "progress" (Downloading percent None None None)], [])
      ∧ percent = Some (512 / 2048 * 100)%Q.
Proof.
  intros d. split; [reflexivity|]. split; [reflexivity|].
  destruct (progress_hook_percent d) as (_ & Hdl & _).
  destruct (Hdl eq_refl) as (percent & Hev & Hsome & _).
  exists percent. split; [exact Hev|].
  exact (proj2 (Hsome 2048%Q eq_refl)).
Defined.

(** ** The registry: taking a job *)

(** Unfolds the monad of the server code. *)
Ltac unfold_M :=
  unfold mbind, M_bind, mret, M_ret, try_except, raise, logger, JOBS_pop,
    JOBS_put, mkdtemp in *.

Lemma rmtree_ignore_errors_returns (d : string) (o : rm_outcome) (s : server) :
  (rmtree d true o s).1 = inr ()
  ∧ JOBS (rmtree d true o s).2 = JOBS s
  ∧ app_log (rmtree d true o s).2 = app_log s.
Proof. unfold rmtree. case_bool_decide; [destruct o|]; done. Qed.

(** [_cleanup], statement by statement. *)
Lemma cleanup_unfold (token : string) (o : rm_outcome) (s : server) :
  _cleanup token o s
  = match JOBS s !! token with
    | None => (inr (), set_JOBS (delete token) s)
    | Some job =>
        (inr (),
         add_log (Log INFO "Auto-cleaned job %s" token)
           (rmtree (dirname (path job)) true o (set_JOBS (delete token) s)).2)
    end.
Proof.
  unfold _cleanup. unfold_M. simpl.
  destruct (JOBS s !! token) as [job|]; [|done].
  unfold rmtree. case_bool_decide; [destruct o|]; done.
Qed.

(** [download_token], statement by statement. *)
Lemma download_token_unfold (token : string) (o : rm_outcome) (s : server) :
  download_token token o s
  = match JOBS s !! token with
    | None => (inr (Json 404 "invalid or expired token"),
               set_JOBS (delete token) s)
    | Some job =>
        (if bool_decide (dirname (path job) ∈ dirs s)
         then inr (SendFile (path job)
                     (or_else (filename job) (basename (path job))))
         else inl (Exn "FileNotFoundError" "No such file or directory"),
         (rmtree (dirname (path job)) true o (set_JOBS (delete token) s)).2)
    end.
Proof.
  unfold download_token, after_this_request, send_file. unfold_M. simpl.
  destruct (JOBS s !! token) as [job|]; [|done].
  unfold rmtree. simpl.
  destruct (bool_decide (dirname (path job) ∈ dirs s)) eqn:Hd; simpl;
    rewrite Hd; by destruct o.
Qed.

Lemma set_JOBS_delete_absent (token : string) (s : server) :
  JOBS s !! token = None → set_JOBS (delete token) s = s.
Proof.
  intros Hnone. destruct s as [jobs ds l]. unfold set_JOBS. simpl in *.
  by rewrite delete_id.
Qed.

(** A registration and a timer never raise; a download raises only when
    the job is there and its file is gone. *)
Lemma perform_returns (a : action) (s : server) :
  (∀ t o job, a = GetDownload t o → JOBS s !! t = Some job →
              dirname (path job) ∈ dirs s) →
  ∃ r, (perform a s).1 = inr r.
Proof.
  intros Hfile. destruct a as [t job|t o|t o]; unfold perform.
  - unfold_M. simpl. eauto.
  - unfold mbind, M_bind. rewrite cleanup_unfold.
    destruct (JOBS s !! t); simpl; eauto.
  - unfold mbind, M_bind. rewrite download_token_unfold.
    destruct (JOBS s !! t) as [job|] eqn:Hjob; simpl; [|eauto].
    rewrite bool_decide_eq_true_2 by eauto. simpl. eauto.
Qed.

Lemma JOBS_after (a : action) (s : server) :
  JOBS (after a s)
  = match a with
    | Register t job => <[t:=job]> (JOBS s)
    | TimerFires t _ | GetDownload t _ => delete t (JOBS s)
    end.
Proof.
  destruct a as [t job|t o|t o]; unfold after, perform.
  - by unfold_M.
  - unfold mbind, M_bind. rewrite cleanup_unfold.
    destruct (JOBS s !! t) as [job|]; simpl; [|done].
    by destruct (rmtree_ignore_errors_returns (dirname (path job)) o
                   (set_JOBS (delete t) s)) as (_ & -> & _).
  - unfold mbind, M_bind. rewrite download_token_unfold.
    destruct (JOBS s !! t) as [job|]; [|done].
    destruct (rmtree_ignore_errors_returns (dirname (path job)) o
                (set_JOBS (delete t) s)) as (_ & Hjobs & _).
    by destruct (bool_decide (dirname (path job) ∈ dirs s)).
Qed.

(** A token that is absent stays absent as long as no worker registers it. *)
Lemma absent_stays_absent (token : string) (acts : list action) (s : server) :
  JOBS s !! token = None →
  Forall (λ a, ¬ registers token a) acts →
  JOBS (run_actions acts s) !! token = None.
Proof.
  revert s. induction acts as [|a acts IH]; intros s Hnone Hacts; [done|].
  apply Forall_cons in Hacts as [Ha Hacts].
  simpl. apply IH; [|done]. rewrite JOBS_after.
  destruct a as [t job|t o|t o]; simpl in Ha.
  - rewrite lookup_insert_ne; done.
  - destruct (decide (t = token)) as [->|Hne].
    + apply lookup_delete_eq.
    + by rewrite lookup_delete_ne.
  - destruct (decide (t = token)) as [->|Hne].
    + apply lookup_delete_eq.
    + by rewrite lookup_delete_ne.
Qed.

(** A taking action on an absent token changes neither the directories nor
    the log. *)
Lemma take_absent (token : string) (a : action) (s : server) :
  takes token a → JOBS s !! token = None →
  after a s = s ∧ popped a s = None.
Proof.
  destruct a as [t job|t o|t o]; simpl; [done| |]; intros -> Hnone.
  - unfold after, perform, popped, mbind, M_bind. rewrite cleanup_unfold, Hnone.
    simpl. by rewrite set_JOBS_delete_absent.
  - unfold after, perform, popped, mbind, M_bind.
    rewrite download_token_unfold, Hnone.
    simpl. by rewrite set_JOBS_delete_absent.
Qed.

(** C1. A taking action on a token (the download route or the cleanup
    timer, whichever comes first) gets the stored job from [JOBS.pop] when
    there is one, and after it every later taking action on the same token
    gets nothing, as long as no worker registers the token again (a worker
    registers the fresh value of [uuid4]): the later action leaves the
    server as it is, and the download route answers 404. So the job is
    returned at most once. *)
Theorem JOBS_pop_at_most_once (s : server) (token : string)
    (first later : action) (acts : list action) :
  takes token first →
  Forall (λ a, ¬ registers token a) acts →
  takes token later →
  let s' := run_actions acts (after first s) in
  popped first s = JOBS s !! token
  ∧ popped later s' = None
  ∧ after later s' = s'
  ∧ (∀ o, later = GetDownload token o →
          (perform later s').1
          = inr (Some (Json 404 "invalid or expired token"))).
Proof.
  intros Hfirst Hacts Hlater s'.
  assert (Habsent : JOBS s' !! token = None).
  { apply absent_stays_absent; [|done]. rewrite JOBS_after.
    destruct first; simpl in Hfirst; [done| |]; subst; apply lookup_delete_eq. }
  destruct (take_absent token later s' Hlater Habsent) as [Hafter Hpop].
  split; [by destruct first; simpl in Hfirst; subst|].
  repeat split; [done..|].
  intros o ->. unfold perform, mbind, M_bind.
  by rewrite download_token_unfold, Habsent.
Qed.

(** The download comes first, another job is registered, the timer of the
    first job fires: it gets nothing. *)
Lemma JOBS_pop_at_most_once_witness :
  let first := GetDownload "tok" RmOk in
  let acts := [Register "other" sample_job] in
  let later := TimerFires "tok" RmOk in
  (takes "tok" first ∧ Forall (λ a, ¬ registers "tok" a) acts
   ∧ takes "tok" later)
  ∧ popped first sample_server = Some sample_job
  ∧ popped later (run_actions acts (after first sample_server)) = None.
Proof.
  intros first acts later.
  assert (H1 : takes "tok" first) by reflexivity.
  assert (H2 : Forall (λ a, ¬ registers "tok" a) acts).
  { repeat constructor. simpl. discriminate. }
  assert (H3 : takes "tok" later) by reflexivity.
  destruct (JOBS_pop_at_most_once sample_server "tok" first later acts H1 H2 H3)
    as (Hfirst & Hlater & _).
  split; [done|]. split; [|exact Hlater].
  rewrite Hfirst. reflexivity.
Defined.

(** ** The cleanup timer *)

(** What the cleanup action does. It never raises. When the timer fires
    after the token was taken, it changes nothing: no deletion, no log
    record; and a download leaves the token taken. When the timer fires
    first on a job that is still there, the job leaves the registry and the
    deletion runs with [ignore_errors=True]: whether it goes through or not,
    the one record written is [Auto-cleaned job]. *)
Lemma cleanup_effect (s : server) (token : string) (o : rm_outcome) :
  (_cleanup token o s).1 = inr ()
  ∧ (JOBS s !! token = None → (_cleanup token o s).2 = s)
  ∧ (∀ o', JOBS (download_token token o' s).2 !! token = None)
  ∧ (∀ job, JOBS s !! token = Some job →
       let s' := (_cleanup token o s).2 in
       JOBS s' = delete token (JOBS s)
       ∧ app_log s' = app_log s ++ [Log INFO "Auto-cleaned job %s" token]
       ∧ dirs s' = match o with
                   | RmOk => dirs s ∖ {[dirname (path job)]}
                   | RmFails _ => dirs s
                   end).
Proof.
  rewrite cleanup_unfold. split; [|split; [|split]].
  - by destruct (JOBS s !! token).
  - intros Habsent. rewrite Habsent. simpl. by apply set_JOBS_delete_absent.
  - intros o'. rewrite download_token_unfold.
    destruct (JOBS s !! token) as [job|]; simpl; [|apply lookup_delete_eq].
    destruct (rmtree_ignore_errors_returns (dirname (path job)) o'
                (set_JOBS (delete token) s)) as (_ & -> & _).
    apply lookup_delete_eq.
  - intros job Hjob. rewrite Hjob. simpl.
    destruct (rmtree_ignore_errors_returns (dirname (path job)) o
                (set_JOBS (delete token) s)) as (_ & -> & ->).
    do 2 (split; [done|]).
    unfold rmtree. simpl.
    case_bool_decide as Hin; destruct o; simpl; try done.
    apply leibniz_equiv. intros d. rewrite elem_of_difference.
    split; [|tauto]. intros Hd. split; [done|].
    intros ->%elem_of_singleton. done.
Qed.

(** C8, on the code: the timer of the sample job fires first, while the
    job is still in the registry, and the system refuses the deletion of
    its directory. [_cleanup] calls [shutil.rmtree] with
    [ignore_errors=True] (line 40), which swallows the failure, so the
    [except] branch that logs [Error cleaning job] (lines 42-43) is never
    entered: the action returns, the job has left the registry, its
    directory is still there, no record of level [ERROR] is written, and the
    one record in the log says [Auto-cleaned job]. The failed deletion is
    not logged. *)
Theorem failed_deletion_is_not_logged :
  let o := RmFails (Exn "PermissionError" "Permission denied") in
  let s' := (_cleanup "tok" o sample_server).2 in
  JOBS sample_server !! "tok" = Some sample_job
  ∧ (_cleanup "tok" o sample_server).1 = inr ()
  ∧ JOBS s' !! "tok" = None
  ∧ dirs s' = dirs sample_server
  ∧ dirname (path sample_job) ∈ dirs s'
  ∧ app_log s' = [Log INFO "Auto-cleaned job %s" "tok"]
  ∧ ¬ ∃ format arg, Log ERROR format arg ∈ app_log s'.
Proof.
  intros o s'. subst s'. rewrite cleanup_unfold.
  change (JOBS sample_server !! "tok") with (Some sample_job).
  split; [done|]. split; [done|]. split; [done|]. split; [done|].
  split; [|split; [done|]].
  - apply (bool_decide_unpack _). vm_compute. exact I.
  - intros (format & arg & Hin). simpl in Hin.
    apply list_elem_of_singleton in Hin. discriminate Hin.
Qed.

(** ** Access control and URL validation *)

Section Validation.
Context `{Lowering}.

(** The key check turns a request down with 403 or lets it pass. *)
Lemma api_key_check_cases (API_KEY : option string) (req : request) :
  (api_key_check API_KEY req = None
   ∧ (truthy_opt API_KEY = true → x_api_key req = API_KEY))
  ∨ (∃ msg, api_key_check API_KEY req = Some (Json 403 msg)
            ∧ truthy_opt API_KEY = true).
Proof.
  unfold api_key_check. destruct (truthy_opt API_KEY) eqn:Hk; [|by left].
  destruct (truthy_opt (x_api_key req)); simpl; [|right; eauto].
  case_bool_decide; simpl; [by left | right; eauto].
Qed.

Lemma api_key_check_rejects (API_KEY : option string) (req : request) :
  truthy_opt API_KEY = true → x_api_key req ≠ API_KEY →
  ∃ msg, api_key_check API_KEY req = Some (Json 403 msg).
Proof.
  intros Hk Hne.
  destruct (api_key_check_cases API_KEY req) as [[_ Heq]|(msg & -> & _)];
    [|eauto].
  by destruct Hne, Heq.
Qed.

(** The two routes that take a url, up to the end of their checks. *)
Lemma checked_route_unfold (API_KEY : option string) (r : route)
    (req : request) (w : world) (s : server) :
  r = Progress ∨ r = Fetch →
  (url_missing (args_url req) = true →
   dispatch API_KEY r req w s = (inr (Json 400 "missing url parameter"), s))
  ∧ (url_missing (args_url req) = false →
     ∀ reply, api_key_check API_KEY req = Some reply →
              dispatch API_KEY r req w s = (inr reply, s))
  ∧ (url_missing (args_url req) = false →
     api_key_check API_KEY req = None →
     is_youtube_url (args_url req) = false →
     dispatch API_KEY r req w s
     = (inr (Json 400 "unsupported url domain"), s)).
Proof.
  intros [-> | ->]; unfold dispatch, progress_sse, fetch;
    (split; [|split]).
  all: try (intros ->; reflexivity).
  all: try (intros -> reply ->; reflexivity).
  all: intros -> -> ->; reflexivity.
Qed.
End Validation.

(** C4, as the claim states it: with a secret configured, a request without
    the key would get 403 on each of the three routes. The download route
    reads no header and serves the file; and on the other two routes a
    request without [url] gets 400, the key is looked at after the url. *)
Lemma api_key_is_not_checked_everywhere :
  let req := {| args_url := None; x_api_key := None |} in
  truthy_opt (Some "secret") = true
  ∧ x_api_key req ≠ Some "secret"
  ∧ (dispatch (Some "secret") (Download "tok") req sample_world sample_server).1
    = inr (SendFile (path sample_job) (str "a.mp3"))
  ∧ (dispatch (Some "secret") Progress req sample_world sample_server).1
    = inr (Json 400 "missing url parameter")
  ∧ (dispatch (Some "secret") Fetch req sample_world sample_server).1
    = inr (Json 400 "missing url parameter").
Proof.
  intros req. repeat split; done.
Qed.

(** C4, amended. If the secret [API_KEY] is configured, every request to
    [/progress] or [/fetch] that carries a url and whose [X-API-Key] header
    is missing, empty or different from the secret is answered 403, and the
    server is left as it was: no temporary directory, no job, no log
    record. *)
Theorem api_key_enforced `{Lowering} (API_KEY : option string) (r : route)
    (req : request) (w : world) (s : server) :
  r = Progress ∨ r = Fetch →
  truthy_opt API_KEY = true →
  x_api_key req ≠ API_KEY →
  url_missing (args_url req) = false →
  ∃ msg, dispatch API_KEY r req w s = (inr (Json 403 msg), s).
Proof.
  intros Hr Hk Hne Hurl.
  destruct (api_key_check_rejects API_KEY req Hk Hne) as [msg Hmsg].
  exists msg.
  destruct (checked_route_unfold API_KEY r req w s Hr) as (_ & Hkey & _).
  by apply Hkey.
Qed.

(** A request to [/fetch] with a wrong key. *)
Lemma api_key_enforced_witness :
  let req := {| args_url := Some (str "https://youtu.be/x");
                x_api_key := Some "guess" |} in
  (truthy_opt (Some "secret") = true ∧ x_api_key req ≠ Some "secret"
   ∧ url_missing (args_url req) = false)
  ∧ ∃ msg, dispatch (Some "secret") Fetch req sample_world sample_server
           = (inr (Json 403 msg), sample_server).
Proof.
  intros req.
  assert (Hne : x_api_key req ≠ Some "secret") by discriminate.
  split; [by repeat split|].
  exact (api_key_enforced (Some "secret") Fetch req sample_world sample_server
           (or_intror eq_refl) eq_refl Hne eq_refl).
Defined.

(** C6, as the claim states it: a url that fails the check would get 400.
    With a secret configured and no key in the request, the reply is 403:
    the key is checked before the url's shape. *)
Lemma bad_url_without_key_gets_403 :
  let req := {| args_url := Some (str "https://example.com/");
                x_api_key := None |} in
  is_youtube_url (args_url req) = false
  ∧ dispatch (Some "secret") Progress req sample_world sample_server
    = (inr (Json 403 "missing X-API-Key header"), sample_server)
  ∧ dispatch (Some "secret") Fetch req sample_world sample_server
    = (inr (Json 403 "missing X-API-Key header"), sample_server).
Proof. intros req. repeat split. Qed.

(** C6, amended. For every url that fails [is_youtube_url], [/fetch] and
    [/progress] turn the request down and leave the server as it was, so no
    temporary directory is created: the reply is 400, except that it is 403
    when the url is there and the check of a configured key fails first. *)
Theorem bad_url_rejected `{Lowering} (API_KEY : option string) (r : route)
    (req : request) (w : world) (s : server) :
  r = Progress ∨ r = Fetch →
  is_youtube_url (args_url req) = false →
  ∃ status msg,
    dispatch API_KEY r req w s = (inr (Json status msg), s)
    ∧ (status = 400%nat ∨ status = 403%nat)
    ∧ (status = 403%nat ↔
       url_missing (args_url req) = false
       ∧ api_key_check API_KEY req ≠ None).
Proof.
  intros Hr Hbad.
  destruct (checked_route_unfold API_KEY r req w s Hr) as (Hmiss & Hkey & Hurl).
  destruct (url_missing (args_url req)) eqn:Hm.
  - exists 400%nat, "missing url parameter". rewrite Hmiss by done.
    split; [done|]. split; [by left|]. split; [done|]. by intros [? _].
  - destruct (api_key_check_cases API_KEY req) as [[Hnone _]|(msg & Hsome & _)].
    + exists 400%nat, "unsupported url domain". rewrite Hurl by done.
      split; [done|]. split; [by left|]. split; [done|]. by intros [_ ?].
    + exists 403%nat, msg. rewrite (Hkey eq_refl _ Hsome).
      split; [done|]. split; [by right|]. split; [|done].
      intros _. split; [done|]. by rewrite Hsome.
Qed.

(** A url of another site, no secret configured. *)
Lemma bad_url_rejected_witness :
  let req := {| args_url := Some (str "https://example.com/");
                x_api_key := None |} in
  is_youtube_url (args_url req) = false
  ∧ ∃ status msg,
      dispatch None Fetch req sample_world sample_server
      = (inr (Json status msg), sample_server)
      ∧ (status = 400%nat ∨ status = 403%nat).
Proof.
  intros req. split; [reflexivity|].
  destruct (bad_url_rejected (H:=ascii_lowering) None Fetch req sample_world
              sample_server (or_intror eq_refl) eq_refl)
    as (status & msg & Hreply & Hst & _).
  by exists status, msg.
Defined.

(** *** The invariant *)

Lemma terminal_free_app (l l' : list sse) :
  terminal_free (l ++ l') = terminal_free l && terminal_free l'.
Proof. apply forallb_app. Qed.

Lemma progress_hook_terminal_free (d : hook_dict) :
  terminal_free (progress_hook d).1 = true.
Proof.
  unfold progress_hook, progress_hook_body, py_div.
  repeat case_bool_decide; [|done..].
  destruct (Qeq_bool (num_or (total_bytes d) (num_or (total_bytes_estimate d) 0)) 0);
    done.
Qed.

Ltac unfold_system :=
  unfold with_gen, with_worker, with_srv, push_events, yield in *; simpl in *.

Ltac system_fields :=
  unfold with_gen, with_worker, with_srv, push_events, yield in *;
  cbn [event_queue stream gen worker finished result srv remaining] in *.

Section StreamFacts.
Context `{Lowering}.
Variable j : job_input.

Lemma final_event_outcome : final_event j (final_result j) = outcome_event j.
Proof.
  unfold final_event, final_result, outcome_event.
  destruct (try_result j) as [e|d]; simpl; [|done].
  by destruct (String.eqb (str_exc e) "").
Qed.

Lemma outcome_event_terminal : is_terminal (outcome_event j) = true.
Proof. unfold outcome_event. by destruct (try_result j). Qed.

Lemma wrap_up_fields (st : system) :
  event_queue (wrap_up j st) = event_queue st
  ∧ finished (wrap_up j st) = finished st
  ∧ worker (wrap_up j st) = worker st
  ∧ gen (wrap_up j st) = gen st
  ∧ stream (wrap_up j st) = stream st
  ∧ (result st = initial_result → result (wrap_up j st) = final_result j).
Proof.
  unfold wrap_up, worker_except, final_result, try_result, deliverable_name.
  destruct (engine_result (j_engine j)) as [e|d]; [|destruct (j_timer j)];
    simpl; repeat split; by intros ->.
Qed.

Lemma invariant_initial (s : server) : invariant j (initial s).
Proof. unfold invariant. simpl. repeat split; auto; done. Qed.

(** A generator that raised never started the worker. *)
Lemma raised_not_started (st : system) :
  invariant j st → worker st ≠ WNotStarted → gen st ≠ GRaised.
Proof.
  intros (_ & _ & _ & _ & _ & _ & Hraised & _) Hw Hg.
  by destruct (Hraised Hg) as [? _].
Qed.

Lemma invariant_worker_step (st : system) :
  invariant j st → invariant j (worker_step j st).
Proof.
  intros Hinv.
  pose proof (raised_not_started st Hinv) as Hnot.
  destruct Hinv as (Hq & Hf & Hr & Hloop & Hcreated & Hstart & Hraised & Hshape).
  unfold worker_step.
  destruct (worker st) as [|[|d pending]| | |] eqn:Hw.
  - unfold invariant. by rewrite Hw.
  - destruct (j_blocks j); [unfold invariant; by rewrite Hw|].
    destruct (wrap_up_fields st) as (Eq & Ef & _ & Eg & Es & Er).
    unfold invariant. unfold_system.
    rewrite Eq, Ef, Eg, Es, (Er Hr).
    repeat split; try done.
    all: exfalso;
      solve [ by destruct Hnot
            | match goal with
              | Hg : gen _ = GCreated |- _ => by destruct (Hcreated Hg)
              end ].
  - destruct (progress_hook d) as [events records] eqn:Hd.
    pose proof (progress_hook_terminal_free d) as Hfree.
    rewrite Hd in Hfree. simpl in Hfree.
    unfold invariant. unfold_system.
    rewrite terminal_free_app, Hq, Hfree.
    repeat split; try done.
    all: exfalso;
      solve [ by destruct Hnot
            | match goal with
              | Hg : gen _ = GCreated |- _ => by destruct (Hcreated Hg)
              end ].
  - unfold invariant. simpl.
    repeat split; try done.
    all: try (by destruct (gen st)).
    all: exfalso;
      solve [ by destruct Hnot
            | match goal with
              | Hg : gen _ = GCreated |- _ => by destruct (Hcreated Hg)
              end ].
  - unfold invariant. unfold_system.
    rewrite terminal_free_app, Hq.
    repeat split; try done.
    all: exfalso;
      solve [ by destruct Hnot
            | match goal with
              | Hg : gen _ = GCreated |- _ => by destruct (Hcreated Hg)
              end ].
  - unfold invariant. by rewrite Hw.
Qed.

Lemma invariant_gen_step (st : system) :
  invariant j st → invariant j (gen_step j st).
Proof.
  intros (Hq & Hf & Hr & Hloop & Hcreated & Hstart & Hraised & Hshape).
  assert (Hstarted : gen st ≠ GCreated → gen st ≠ GClosed → gen st ≠ GRaised →
                     worker st ≠ WNotStarted).
  { intros ? ? ? Hw. by destruct (Hstart Hw) as [?|[?|?]]. }
  unfold gen_step, invariant.
  destruct (gen st) eqn:Hg; simpl in Hshape.
  - destruct (Hcreated eq_refl) as [Hw Hnil].
    destruct (j_start j) eqn:Hs; unfold_system; rewrite ?Hw in *;
      repeat split; try done; auto.
  - destruct (finished st) eqn:Hfin; unfold_system; rewrite ?Hfin;
      repeat split; try done; intros Hw; by destruct Hstarted.
  - destruct (event_queue st) eqn:Hqueue; unfold_system; rewrite ?Hqueue;
      repeat split; try done; intros Hw; by destruct Hstarted.
  - destruct (event_queue st) as [|e rest] eqn:Hqueue; unfold_system.
    + rewrite ?Hqueue, terminal_free_app, Hshape.
      repeat split; try done. intros Hw; by destruct Hstarted.
    + apply andb_prop in Hq as [He Hrest].
      rewrite terminal_free_app, Hshape. simpl. rewrite He.
      repeat split; try done. intros Hw; by destruct Hstarted.
  - unfold_system.
    repeat split; try done. intros Hw; by destruct Hstarted.
  - unfold_system.
    assert (Hres : result st = final_result j).
    { rewrite Hr. rewrite Hloop in Hf. by destruct (worker st). }
    rewrite Hres, final_event_outcome.
    split; [done|]. split; [done|]. split; [congruence|]. split; [done|].
    split; [done|]. split; [intros Hw; by destruct Hstarted|].
    split; [done|]. by exists (stream st).
  - destruct (success (result st)); unfold_system;
      repeat split; try done; intros Hw; by destruct Hstarted.
  - rewrite Hg. repeat split; done.
  - rewrite Hg. repeat split; done.
  - rewrite Hg. repeat split; try done; by destruct (Hraised eq_refl) as (?&?&?).
Qed.

Lemma invariant_close_step (st : system) :
  invariant j st → invariant j (close_step st).
Proof.
  intros (Hq & Hf & Hr & Hloop & Hcreated & Hstart & Hraised & Hshape).
  unfold close_step, invariant.
  destruct (gen st) eqn:Hg; simpl in Hshape; unfold_system;
    rewrite ?Hg; repeat split; try done; simpl; eauto.
  - destruct Hshape as (body & -> & Hbody). eauto.
  - by destruct (Hraised eq_refl) as (? & ? & ?).
  - by destruct (Hraised eq_refl) as (? & ? & ?).
  - by destruct (Hraised eq_refl) as (? & ? & ?).
Qed.

Lemma invariant_registry_step (a : action) (st : system) :
  invariant j st → invariant j (with_srv (after a) st).
Proof. done. Qed.

Lemma invariant_step (a : actor) (st : system) :
  invariant j st → invariant j (step j a st).
Proof.
  destruct a; simpl;
    auto using invariant_worker_step, invariant_gen_step,
      invariant_close_step, invariant_registry_step.
Qed.

Lemma invariant_run_from (schedule : list actor) (st : system) :
  invariant j st → invariant j (run_from j st schedule).
Proof.
  revert st. induction schedule as [|a schedule IH]; intros st Hst; [done|].
  simpl. apply IH. by apply invariant_step.
Qed.

Lemma invariant_run (s : server) (schedule : list actor) :
  invariant j (run j s schedule).
Proof. apply invariant_run_from, invariant_initial. Qed.
End StreamFacts.

(** *** The generator runs to its end *)

Section Progress.
Context `{Lowering}.
Variable j : job_input.

Lemma run_from_app (st : system) (l l' : list actor) :
  run_from j st (l ++ l') = run_from j (run_from j st l) l'.
Proof. apply foldl_app. Qed.

(** The worker leaves the generator and the stream alone. *)
Lemma worker_step_gen (st : system) :
  gen (worker_step j st) = gen st ∧ stream (worker_step j st) = stream st.
Proof.
  unfold worker_step.
  destruct (worker st) as [|[|d pending]| | |]; unfold_system; try done.
  - destruct (j_blocks j); [done|].
    by destruct (wrap_up_fields j st) as (_ & _ & _ & -> & -> & _).
  - by destruct (progress_hook d).
Qed.

Lemma worker_step_fuel (st : system) :
  j_blocks j = false →
  worker_fuel (worker (worker_step j st)) = pred (worker_fuel (worker st))
  ∧ (worker st ≠ WNotStarted → worker (worker_step j st) ≠ WNotStarted).
Proof.
  intros Hreturns. unfold worker_step. rewrite Hreturns.
  destruct (worker st) as [|[|d pending]| | |] eqn:Hw; rewrite ?Hw; try done.
  destruct (progress_hook d). simpl. split; [lia|done].
Qed.

(** Scheduled often enough, a started worker whose engine call ends
    exits; the generator does not move meanwhile. *)
Lemma worker_runs_out (n : nat) (st : system) :
  j_blocks j = false →
  worker st ≠ WNotStarted → (worker_fuel (worker st) ≤ n)%nat →
  worker (run_from j st (repeat Worker n)) = WExited
  ∧ gen (run_from j st (repeat Worker n)) = gen st.
Proof.
  intros Hreturns.
  revert st. induction n as [|n IH]; intros st Hstarted Hfuel; simpl.
  - split; [|done]. destruct (worker st) as [| | | |]; simpl in Hfuel;
      try done; lia.
  - destruct (worker_step_fuel st Hreturns) as [Hpred Hkeep].
    destruct (IH (worker_step j st)) as [Hw Hg]; [auto|lia|].
    split; [done|]. rewrite Hg. apply worker_step_gen.
Qed.

(** A generator that was started and is not closed moves on. *)
Lemma gen_step_not_closed (st : system) :
  j_start j = Started → gen st ≠ GClosed → gen st ≠ GRaised →
  gen (gen_step j st) ≠ GClosed ∧ gen (gen_step j st) ≠ GRaised
  ∧ gen (gen_step j st) ≠ GCreated.
Proof.
  unfold gen_step. intros Hstart Hg Hr. rewrite Hstart.
  destruct (gen st) eqn:Hpc; unfold_system;
    repeat (case_match; unfold_system); rewrite ?Hpc; by repeat split.
Qed.

Lemma no_close_not_closed (schedule : list actor) (st : system) :
  j_start j = Started → gen st ≠ GClosed → gen st ≠ GRaised →
  ClientCloses ∉ schedule →
  gen (run_from j st schedule) ≠ GClosed
  ∧ gen (run_from j st schedule) ≠ GRaised.
Proof.
  intros Hstart.
  revert st. induction schedule as [|a schedule IH]; intros st Hg Hr Hs;
    [done|].
  apply not_elem_of_cons in Hs as [Ha Hs].
  simpl. destruct a as [| | |a]; simpl.
  - destruct (worker_step_gen st) as [Egen _].
    apply IH; [by rewrite Egen|by rewrite Egen|done].
  - destruct (gen_step_not_closed st Hstart Hg Hr) as (? & ? & _).
    by apply IH.
  - done.
  - by apply IH.
Qed.

(** Once the flag is set, the generator reaches its end in [gen_fuel]
    steps whatever the worker still does: it drains the queue, leaves the
    loop, yields the terminal event and returns. *)
Lemma gen_runs_out (n : nat) (st : system) :
  j_start j = Started →
  finished st = true → worker st = WExited →
  gen st ≠ GCreated → gen st ≠ GClosed → gen st ≠ GRaised →
  (gen_fuel st ≤ n)%nat →
  gen (run_from j st (repeat Consumer n)) = GReturned.
Proof.
  intros Hstart.
  revert st. induction n as [|n IH]; intros st Hfin Hw Hc Hcl Hr Hfuel; simpl.
  - unfold gen_fuel in Hfuel.
    destruct (gen st); try done; try lia.
    destruct (length (event_queue st)); lia.
  - assert (Hnext : finished (gen_step j st) = true
                    ∧ worker (gen_step j st) = WExited
                    ∧ (gen_fuel (gen_step j st) ≤ n)%nat).
    { unfold gen_fuel in *. unfold gen_step.
      destruct (gen st) eqn:Hg; try done; unfold_system.
      - rewrite Hfin. simpl. repeat split; try done. lia.
      - destruct (event_queue st); simpl in *; repeat split; try done; lia.
      - destruct (event_queue st) as [|e [|e' rest]]; simpl in *;
          repeat split; try done; lia.
      - repeat split; try done. lia.
      - repeat split; try done. lia.
      - destruct (success (result st)); simpl; repeat split; try done; lia.
      - rewrite Hg. repeat split; try done. lia. }
    destruct Hnext as (Hfin' & Hw' & Hfuel').
    destruct (gen_step_not_closed st Hstart Hcl Hr) as (? & ? & ?).
    by apply IH.
Qed.

(** A generator that was closed stays closed, and its stream is over. *)
Lemma closed_stays_closed (more : list actor) (st : system) :
  gen st = GClosed →
  gen (run_from j st more) = GClosed
  ∧ stream (run_from j st more) = stream st.
Proof.
  revert st. induction more as [|a more IH]; intros st Hg; [done|].
  simpl. destruct a as [| | |a]; simpl.
  - destruct (worker_step_gen st) as [Egen Estream].
    destruct (IH (worker_step j st)) as [-> ->]; [by rewrite Egen|done].
  - unfold gen_step. rewrite Hg. by apply IH.
  - unfold close_step. rewrite Hg. by apply IH.
  - by destruct (IH (with_srv (after a) st)) as [-> ->].
Qed.
End Progress.

Section Completion.
Context `{Lowering}.
Variable j : job_input.

Lemma not_elem_of_repeat (a b : actor) (n : nat) : a ≠ b → a ∉ repeat b n.
Proof.
  intros Hne Hin%list_elem_of_In. apply repeat_spec in Hin. done.
Qed.

(** When the start goes through and the engine call ends, the generator
    can be run to its end as long as the client stays. *)
Lemma can_run_to_end (s : server) (schedule : list actor) :
  j_start j = Started → j_blocks j = false →
  ClientCloses ∉ schedule →
  ∃ more, (ClientCloses ∉ more)
          ∧ gen (run j s (schedule ++ more)) = GReturned.
Proof.
  intros Hstart Hreturns Hs. set (st0 := run j s schedule).
  assert (Hopen0 : gen st0 ≠ GClosed ∧ gen st0 ≠ GRaised)
    by by apply no_close_not_closed.
  destruct Hopen0 as [Hopen0 Hok0].
  set (st1 := gen_step j st0).
  destruct (gen_step_not_closed j st0 Hstart Hopen0 Hok0)
    as (Hopen1 & Hok1 & Hstarted1).
  fold st1 in Hopen1, Hok1, Hstarted1.
  assert (Hinv1 : invariant j st1).
  { apply invariant_gen_step, invariant_run. }
  assert (Hw1 : worker st1 ≠ WNotStarted).
  { destruct Hinv1 as (_ & _ & _ & _ & _ & Hnot & _).
    intros Hw. by destruct (Hnot Hw) as [?|[?|?]]. }
  set (kw := worker_fuel (worker st1)).
  set (st2 := run_from j st1 (repeat Worker kw)).
  destruct (worker_runs_out j kw st1 Hreturns Hw1 (le_n _)) as [Hw2 Hg2].
  fold st2 in Hw2, Hg2.
  assert (Hinv2 : invariant j st2) by by apply invariant_run_from.
  assert (Hfin2 : finished st2 = true).
  { destruct Hinv2 as (_ & -> & _). by rewrite Hw2. }
  set (kc := gen_fuel st2).
  exists ([Consumer] ++ repeat Worker kw ++ repeat Consumer kc). split.
  - rewrite !not_elem_of_app. repeat split.
    + by intros ?%list_elem_of_singleton.
    + by apply not_elem_of_repeat.
    + by apply not_elem_of_repeat.
  - unfold run. rewrite !run_from_app.
    change (gen (run_from j st2 (repeat Consumer kc)) = GReturned).
    apply gen_runs_out; [done|done|done| | | |done]; by rewrite Hg2.
Qed.
End Completion.

Lemma terminal_free_count (l : list sse) :
  terminal_free l = true → terminal_count l = 0%nat.
Proof.
  unfold terminal_free, terminal_count.
  induction l as [|e l IH]; [done|]. simpl.
  intros [He Hl]%andb_prop. destruct (is_terminal e); [done|]. by apply IH.
Qed.

(** C2, as the claim states it: every stream would carry exactly one
    terminal event. A client that disconnects closes the generator at a
    [yield] of the loop ([except GeneratorExit: ... return]); the stream is
    then over without a terminal event. *)
Lemma closed_stream_has_no_terminal_event :
  let st := run sample_input sample_server disconnecting_schedule in
  stream_over st = true
  ∧ stream st = [KeepAlive]
  ∧ terminal_count (stream st) = 0%nat
  ∧ ¬ ends_with_its_only_terminal (stream st).
Proof.
  intros st. repeat split.
  intros (body & t & Hst & Ht & _).
  change (stream st) with [KeepAlive] in Hst.
  destruct body as [|e [|e' body]]; simplify_eq/=.
Qed.

(** *** Streams without a terminal event *)

Section NoTerminal.
Context `{Lowering}.
Variable j : job_input.

Lemma terminal_after_flag_step (a : actor) (st : system) :
  invariant j st → terminal_after_flag st →
  terminal_after_flag (step j a st).
Proof.
  intros (Hq & _ & _ & Hloop & _) Hst. unfold terminal_after_flag in *.
  destruct a; simpl.
  - unfold worker_step.
    destruct (worker st) as [|[|d pending]| | |]; system_fields; auto.
    + destruct (j_blocks j); [done|].
      by destruct (wrap_up_fields j st) as (_ & -> & _ & _ & -> & _).
    + by destruct (progress_hook d).
  - unfold gen_step. destruct (gen st) eqn:Hg; system_fields; auto.
    + by destruct (j_start j).
    + by destruct (finished st).
    + by destruct (event_queue st).
    + destruct (event_queue st) as [|e rest]; system_fields.
      * destruct Hst as [Hst|Hst]; [left|by right].
        by rewrite terminal_free_app, Hst.
      * destruct Hst as [Hst|Hst]; [left|by right].
        apply andb_prop in Hq as [He _].
        rewrite terminal_free_app, Hst. simpl. by rewrite He.
    + by destruct (success (result st)).
  - unfold close_step. destruct (gen st); by system_fields.
  - done.
Qed.

Lemma terminal_after_flag_run (s : server) (schedule : list actor) :
  terminal_after_flag (run j s schedule).
Proof.
  unfold run.
  assert (Hgen : ∀ st, invariant j st → terminal_after_flag st →
                       terminal_after_flag (run_from j st schedule)).
  { induction schedule as [|a l IH]; intros st Hinv Hst; [done|].
    simpl. apply IH; [by apply invariant_step|].
    by apply terminal_after_flag_step. }
  apply Hgen; [apply invariant_initial|by left].
Qed.

(** A worker whose engine call blocks never leaves it. *)
Lemma blocked_worker_stays (s : server) (schedule : list actor) :
  j_blocks j = true → wrapped_up (worker (run j s schedule)) = false.
Proof.
  intros Hblocks. unfold run.
  assert (Hgen : ∀ st, wrapped_up (worker st) = false →
                       wrapped_up (worker (run_from j st schedule)) = false).
  { induction schedule as [|a l IH]; intros st Hst; [done|].
    simpl. apply IH. destruct a as [| | |a]; simpl.
    - unfold worker_step. rewrite Hblocks.
      destruct (worker st) as [|[|d pending]| | |] eqn:Hw; rewrite ?Hw;
        try done.
      by destruct (progress_hook d).
    - unfold gen_step.
      destruct (gen st); repeat case_match; by system_fields.
    - unfold close_step. destruct (gen st); by system_fields.
    - done. }
  by apply Hgen.
Qed.

(** While the engine call blocks, no terminal event is yielded. *)
Lemma blocked_stream (s : server) (schedule : list actor) :
  j_blocks j = true → terminal_free (stream (run j s schedule)) = true.
Proof.
  intros Hblocks.
  pose proof (blocked_worker_stays s schedule Hblocks) as Hw.
  destruct (invariant_run j s schedule) as (_ & Hf & _).
  destruct (terminal_after_flag_run s schedule) as [Hfree|Hfin]; [done|].
  rewrite Hfin in Hf. by destruct (worker (run j s schedule)).
Qed.

(** A generator whose first statements raise yields nothing. *)
Lemma failed_start_stream (s : server) (schedule : list actor) :
  j_start j ≠ Started → stream (run j s schedule) = [].
Proof.
  intros Hfails. unfold run.
  assert (Hgen : ∀ st,
    stream st = [] ∧ (gen st = GCreated ∨ gen st = GClosed ∨ gen st = GRaised) →
    stream (run_from j st schedule) = []).
  { induction schedule as [|a l IH]; intros st [Hnil Hg]; [done|].
    simpl. apply IH. destruct a as [| | |a]; simpl.
    - by destruct (worker_step_gen j st) as [-> ->].
    - unfold gen_step.
      destruct Hg as [Hg|[Hg|Hg]]; rewrite Hg; [|by auto..].
      destruct (j_start j); [done| |]; system_fields; auto.
    - unfold close_step.
      destruct Hg as [Hg|[Hg|Hg]]; rewrite Hg; system_fields; auto.
    - done. }
  apply Hgen. simpl. auto.
Qed.
End NoTerminal.

(** C2, amended. In every state of a job's stream at most one terminal
    event has been yielded and nothing has been yielded after it: the stream
    is a list of progress events and keep-alive lines, followed or not by
    the terminal event of the job's outcome ([done] when the [try] block of
    the worker succeeded, [error] otherwise). When the generator has run to
    its end, the stream holds exactly one terminal event, and it is the last
    event. The generator can be run to its end when its first statements
    ([mkdtemp], [worker.start()]) go through, the engine call returns or
    raises, and the client does not disconnect. Otherwise there is no
    terminal event: a stream closed by a disconnect before its first event or
    at a [yield] of the loop is over without one, whatever happens later; a
    generator whose first statements raise yields nothing; and as long as
    the engine call blocks only progress events and keep-alive lines are
    yielded. *)
Theorem terminal_event_once_and_last `{Lowering} (j : job_input) (s : server)
    (schedule : list actor) :
  let st := run j s schedule in
  is_terminal (outcome_event j) = true
  ∧ (∃ body, terminal_free body = true
             ∧ (stream st = body ∨ stream st = body ++ [outcome_event j]))
  ∧ (gen st = GReturned →
     ends_with_its_only_terminal (stream st)
     ∧ last (stream st) = Some (outcome_event j))
  ∧ (j_start j = Started → j_blocks j = false → ClientCloses ∉ schedule →
     ∃ more, (ClientCloses ∉ more)
             ∧ gen (run j s (schedule ++ more)) = GReturned)
  ∧ (gen st = GCreated ∨ gen st = GYielded →
     ∀ more,
       let st' := run j s (schedule ++ ClientCloses :: more) in
       gen st' = GClosed ∧ stream st' = stream st
       ∧ terminal_count (stream st') = 0%nat)
  ∧ (j_start j ≠ Started → stream st = [])
  ∧ (j_blocks j = true → terminal_count (stream st) = 0%nat).
Proof.
  intros st.
  pose proof (outcome_event_terminal j) as Hterm.
  destruct (invariant_run j s schedule)
    as (_ & _ & _ & _ & _ & _ & _ & Hshape).
  fold st in Hshape.
  split; [done|]. split; [|split; [|split; [|split; [|split]]]].
  - destruct (gen st); simpl in Hshape;
      try (by exists (stream st); auto); try exact Hshape.
    + destruct Hshape as (body & -> & Hbody). eauto.
    + destruct Hshape as (body & -> & Hbody). eauto.
  - intros Hg. rewrite Hg in Hshape. destruct Hshape as (body & -> & Hbody).
    split; [by exists body, (outcome_event j)|]. apply last_snoc.
  - apply can_run_to_end.
  - intros Hg more st'.
    assert (Hfree : terminal_free (stream st) = true).
    { by destruct Hg as [Hg|Hg]; rewrite Hg in Hshape. }
    assert (Hclosed : gen (close_step st) = GClosed
                      ∧ stream (close_step st) = stream st).
    { unfold close_step. by destruct Hg as [-> | ->]. }
    destruct Hclosed as [Hc Hs].
    destruct (closed_stays_closed j more (close_step st) Hc) as [Hg' Hs'].
    assert (Hst' : st' = run_from j (close_step st) more).
    { unfold st', st, run. by rewrite run_from_app. }
    rewrite Hst', Hg', Hs', Hs.
    split; [done|]. split; [done|]. by apply terminal_free_count.
  - intros Hfails. by apply failed_start_stream.
  - intros Hblocks. by apply terminal_free_count, blocked_stream.
Qed.

(** The sample job, scheduled without a disconnect, runs to its end with
    the event [done] last; closed after its first keep-alive line, its
    stream stays without terminal event although the worker goes on; on a
    full disk it yields nothing; with a blocked engine call it yields the
    event of the callback and keep-alive lines only. *)
Lemma terminal_event_once_and_last_witness :
  let schedule := [Consumer; Worker; Worker; Worker; Worker;
                   Consumer; Consumer; Consumer; Consumer; Consumer;
                   Consumer; Consumer; Consumer; Consumer; Consumer;
                   Consumer; Consumer] in
  let st := run sample_input sample_server schedule in
  let open := [Consumer; Consumer; Consumer] in
  let more := [Worker; Worker; Worker; Worker; Consumer] in
  let closed := run sample_input sample_server (open ++ ClientCloses :: more) in
  let blocked := [Consumer; Worker; Worker; Worker; Consumer; Consumer;
                  Consumer; Consumer; Consumer; Consumer] in
  ((gen st = GReturned
    ∧ j_start sample_input = Started ∧ j_blocks sample_input = false
    ∧ ClientCloses ∉ schedule)
   ∧ ends_with_its_only_terminal (stream st)
   ∧ last (stream st) = Some (Event "done" (Done "tok3" (Some (str "a.mp3"))))
   ∧ ∃ more, gen (run sample_input sample_server (schedule ++ more))
             = GReturned)
  ∧ (gen (run sample_input sample_server open) = GYielded
     ∧ gen closed = GClosed ∧ worker closed = WExited
     ∧ terminal_count (stream closed) = 0%nat)
  ∧ (j_start sample_input_disk_full ≠ Started
     ∧ stream (run sample_input_disk_full sample_server schedule) = [])
  ∧ (j_blocks sample_input_blocked = true
     ∧ stream (run sample_input_blocked sample_server blocked)
       = [Event "progress" (StatusNote "download finished, converting...");
          KeepAlive]
     ∧ terminal_count (stream (run sample_input_blocked sample_server blocked))
       = 0%nat).
Proof.
  intros schedule st open more closed blocked.
  assert (Hg : gen st = GReturned) by (vm_compute; reflexivity).
  assert (Hs : ClientCloses ∉ schedule).
  { intros Hin. apply (bool_decide_pack _) in Hin. vm_compute in Hin.
    exact Hin. }
  assert (Hopen : gen (run sample_input sample_server open) = GYielded)
    by (vm_compute; reflexivity).
  assert (Hfull : j_start sample_input_disk_full ≠ Started) by discriminate.
  destruct (terminal_event_once_and_last sample_input sample_server schedule)
    as (_ & _ & Hend & Hlive & _).
  destruct (terminal_event_once_and_last sample_input sample_server open)
    as (_ & _ & _ & _ & Hclose & _).
  destruct (terminal_event_once_and_last sample_input_disk_full sample_server
              schedule) as (_ & _ & _ & _ & _ & Hnothing & _).
  destruct (terminal_event_once_and_last sample_input_blocked sample_server
              blocked) as (_ & _ & _ & _ & _ & _ & Hblocked).
  destruct (Hend Hg) as [Hone Hlast].
  destruct (Hlive eq_refl eq_refl Hs) as (more' & _ & Hmore).
  destruct (Hclose (or_intror Hopen) more) as (Hclosed & _ & Hcount).
  split; [|split; [|split]].
  - split; [exact (conj Hg (conj eq_refl (conj eq_refl Hs)))|].
    split; [exact Hone|].
    split; [|exists more'; exact Hmore].
    fold schedule st in Hlast. rewrite Hlast. vm_compute. reflexivity.
  - split; [exact Hopen|]. split; [exact Hclosed|].
    split; [vm_compute; reflexivity|exact Hcount].
  - split; [exact Hfull|exact (Hnothing Hfull)].
  - split; [reflexivity|]. split; [vm_compute; reflexivity|].
    exact (Hblocked eq_refl).
Defined.

(** ** The race between the flag and the last event *)

(** The loop of [generate] is left exactly at the test of the queue, which
    comes after the flag was read as set, when the queue is empty. *)
Lemma loop_exit `{Lowering} (j : job_input) (st : system) :
  (gen (gen_step j st) = GTestQueue
   ↔ gen st = GTestFlag ∧ finished st = true)
  ∧ (gen (gen_step j st) = GAfterLoop
     ↔ gen st = GTestQueue ∧ event_queue st = []).
Proof.
  unfold gen_step.
  destruct (gen st) eqn:Hg, (finished st) eqn:Hf, (event_queue st) eqn:Hq,
    (success (result st)), (j_start j); unfold_system; rewrite ?Hg;
    intuition congruence.
Qed.

(** C3, on the code: the worker sets [finished['done']] before it pushes
    its last event (lines 396-398). Under [racing_schedule] the generator
    sees the flag set and the queue empty in between, leaves the loop,
    yields [done] and returns; the event pushed afterwards stays in the
    queue and is never delivered. The event of the callback, pushed before
    the flag was set, is delivered. *)
Theorem worker_finished_event_left_in_queue :
  let st := run sample_input sample_server racing_schedule in
  gen st = GReturned
  ∧ worker st = WExited
  ∧ stream st
    = [Event "progress" (StatusNote "download finished, converting...");
       Event "done" (Done "tok3" (Some (str "a.mp3")))]
  ∧ event_queue st = [worker_finished_event]
  ∧ worker_finished_event ∈ pushed_by_worker sample_input
  ∧ (worker_finished_event ∉ stream st)
  ∧ delivered (stream st) ≠ pushed_by_worker sample_input.
Proof.
  intros st. repeat split.
  - apply list_elem_of_In. simpl. auto.
  - intros Hin. change (stream st) with
      [Event "progress" (StatusNote "download finished, converting...");
       Event "done" (Done "tok3" (Some (str "a.mp3")))] in Hin.
    apply elem_of_cons in Hin as [Heq|Hin]; [discriminate Heq|].
    apply list_elem_of_singleton in Hin. discriminate Hin.
  - intros Heq. vm_compute in Heq. discriminate Heq.
Qed.

(** * Further properties *)

(** ** [sanitize_filename] on its own results *)

Lemma re_sub_unsafe_id (s : pystr) : no_unsafe s = true → re_sub_unsafe s = s.
Proof.
  unfold re_sub_unsafe, no_unsafe.
  induction s as [|c t IH]; [done|].
  intros Hs. simpl in Hs. apply andb_prop in Hs as [Hc Ht].
  apply negb_true_iff in Hc.
  unfold pystr in *. rewrite filter_cons. case_decide; [|done]. by rewrite IH.
Qed.

Lemma re_sub_ws_from_id (b : bool) (s : pystr) :
  no_ws_run s = true → only_spaces s = true →
  (b = true → no_leading_ws s = true) →
  re_sub_ws_from b s = s.
Proof.
  revert b. induction s as [|c t IH]; intros b Hrun Hsp Hlead; [done|].
  unfold only_spaces in Hsp. simpl in Hsp.
  apply andb_prop in Hsp as [Hc Hsp].
  assert (Hrun' : no_ws_run t = true).
  { destruct t as [|d t]; [done|].
    change (negb (isspace c && isspace d) && no_ws_run (d :: t) = true) in Hrun.
    by apply andb_prop in Hrun as [_ ?]. }
  assert (Hnext : isspace c = true → no_leading_ws t = true).
  { intros Hws. destruct t as [|d t]; [done|].
    change (negb (isspace c && isspace d) && no_ws_run (d :: t) = true) in Hrun.
    apply andb_prop in Hrun as [Hcd _]. rewrite Hws in Hcd. exact Hcd. }
  simpl. destruct (isspace c) eqn:Hws.
  - simpl in Hc. apply N.eqb_eq in Hc.
    destruct b.
    { specialize (Hlead eq_refl). simpl in Hlead. rewrite Hws in Hlead.
      discriminate Hlead. }
    rewrite Hc. f_equal. apply IH; auto.
  - f_equal. apply IH; try done.
Qed.

Lemma lstrip_id (s : pystr) : no_leading_ws s = true → lstrip s = s.
Proof.
  destruct s as [|c t]; [done|]. simpl. intros Hc%negb_true_iff. by rewrite Hc.
Qed.

Lemma rstrip_id (s : pystr) : no_trailing_ws s = true → rstrip s = s.
Proof.
  unfold no_trailing_ws, rstrip. intros Hs. rewrite lstrip_id by done.
  apply rev_involutive.
Qed.

Lemma only_spaces_app (p q : pystr) :
  only_spaces (p ++ q) = true → only_spaces p = true ∧ only_spaces q = true.
Proof. unfold only_spaces. rewrite forallb_app. apply andb_prop. Qed.

Lemma re_sub_ws_from_only_spaces (b : bool) (s : pystr) :
  only_spaces (re_sub_ws_from b s) = true.
Proof.
  revert b. induction s as [|c t IH]; intros b; [done|].
  simpl. destruct (isspace c) eqn:Hc.
  - destruct b; [apply IH|]. unfold only_spaces. simpl. apply IH.
  - unfold only_spaces. simpl. rewrite Hc. apply IH.
Qed.

Lemma cleaned_only_spaces (name : pystr) : only_spaces (cleaned name) = true.
Proof.
  unfold cleaned, strip, re_sub_ws.
  set (a := re_sub_ws_from false (re_sub_unsafe name)).
  pose proof (re_sub_ws_from_only_spaces false (re_sub_unsafe name)) as Ha.
  fold a in Ha.
  destruct (lstrip_split a) as [p [Hp _]].
  destruct (rstrip_split (lstrip a)) as [q Hq].
  rewrite Hp in Ha. apply only_spaces_app in Ha as [_ Ha].
  rewrite Hq in Ha. by apply only_spaces_app in Ha as [Ha _].
Qed.

Lemma clean_name_intro (s : pystr) :
  s ≠ [] → (length s ≤ 200)%nat → no_unsafe s = true →
  only_spaces s = true → no_leading_ws s = true → no_trailing_ws s = true →
  no_ws_run s = true → clean_name s = true.
Proof.
  intros Hne Hlen Hu Hsp Hl Ht Hr. unfold clean_name.
  rewrite Hu, Hsp, Hl, Ht, Hr.
  destruct s; [done|]. simpl truthy.
  by rewrite (proj2 (Nat.leb_le _ _) Hlen).
Qed.

Lemma sanitize_filename_clean (name : pystr) :
  clean_name (sanitize_filename name) = true.
Proof.
  unfold sanitize_filename, sanitize_filename_upto.
  destruct (truthy name); simpl negb; cbv iota; [|by vm_compute].
  fold (cleaned name).
  destruct (cleaned_shape name) as (Ha & Hr & Hl & Ht).
  pose proof (cleaned_only_spaces name) as Hsp.
  assert (Hdef : ∀ s : pystr,
    (length s ≤ 200)%nat → no_unsafe s = true → only_spaces s = true →
    no_leading_ws s = true → no_trailing_ws s = true → no_ws_run s = true →
    clean_name (or_else s (str "untitled")) = true).
  { intros [|c s] ? ? ? ? ? ?; [by vm_compute|].
    by apply clean_name_intro. }
  destruct (200 <? length (cleaned name))%nat eqn:Hlen.
  - destruct (cut_shape 200 (cleaned name) Ha Hr Hl) as (? & ? & ? & ? & ?).
    apply Hdef; try done.
    destruct (rstrip_split (take 200 (cleaned name))) as [q Hq].
    rewrite <- (take_drop 200 (cleaned name)), Hq in Hsp.
    apply only_spaces_app in Hsp as [Hsp _].
    by apply only_spaces_app in Hsp as [Hsp _].
  - apply Nat.ltb_ge in Hlen. by apply Hdef.
Qed.

Lemma sanitize_filename_unchanged (s : pystr) :
  truthy s = true → (length s <=? 200)%nat = true → no_unsafe s = true →
  only_spaces s = true → no_leading_ws s = true → no_trailing_ws s = true →
  no_ws_run s = true → sanitize_filename s = s.
Proof.
  intros Hne Hlen Hu Hsp Hl Ht Hr.
  unfold sanitize_filename, sanitize_filename_upto.
  rewrite Hne. simpl negb. cbv iota.
  rewrite re_sub_unsafe_id by done.
  unfold strip, re_sub_ws.
  rewrite re_sub_ws_from_id by done.
  rewrite lstrip_id, rstrip_id by done.
  apply Nat.leb_le in Hlen.
  rewrite (proj2 (Nat.ltb_ge _ _) Hlen).
  unfold or_else. by rewrite Hne.
Qed.

Lemma clean_name_elim (s : pystr) :
  clean_name s = true →
  truthy s = true ∧ (length s <=? 200)%nat = true ∧ no_unsafe s = true
  ∧ only_spaces s = true ∧ no_leading_ws s = true
  ∧ no_trailing_ws s = true ∧ no_ws_run s = true.
Proof.
  unfold clean_name. intros H.
  repeat (apply andb_prop in H as [H ?]). by repeat split.
Qed.

(** X1. A name that is already clean (not empty, at most 200 characters,
    no unsafe character, no whitespace other than single spaces between
    other characters) comes out of [sanitize_filename] unchanged. *)
Theorem sanitize_filename_fixes_clean (name : pystr) :
  clean_name name = true → sanitize_filename name = name.
Proof.
  intros Hclean.
  destruct (clean_name_elim name Hclean) as (? & ? & ? & ? & ? & ? & ?).
  by apply sanitize_filename_unchanged.
Qed.

Lemma sanitize_filename_fixes_clean_witness :
  clean_name (str "My Song (live)") = true
  ∧ sanitize_filename (str "My Song (live)") = str "My Song (live)".
Proof.
  split; [reflexivity|].
  apply sanitize_filename_fixes_clean. reflexivity.
Defined.

(** X2. [sanitize_filename] is idempotent: sanitizing a sanitized name
    changes nothing. *)
Theorem sanitize_filename_idempotent (name : pystr) :
  sanitize_filename (sanitize_filename name) = sanitize_filename name.
Proof.
  destruct (clean_name_elim _ (sanitize_filename_clean name))
    as (? & ? & ? & ? & ? & ? & ?).
  by apply sanitize_filename_unchanged.
Qed.

(** ** The registry: what a registered job goes through *)

Lemma lookup_after_untouched (token : string) (a : action) (s : server) :
  ¬ touches token a → JOBS (after a s) !! token = JOBS s !! token.
Proof.
  intros Hno. rewrite JOBS_after.
  destruct a as [t job|t o|t o]; unfold touches in Hno; simpl in Hno.
  - apply lookup_insert_ne. tauto.
  - apply lookup_delete_ne. tauto.
  - apply lookup_delete_ne. tauto.
Qed.

Lemma lookup_run_untouched (token : string) (acts : list action) (s : server) :
  Forall (λ a, ¬ touches token a) acts →
  JOBS (run_actions acts s) !! token = JOBS s !! token.
Proof.
  revert s. induction acts as [|a acts IH]; intros s Hacts; [done|].
  apply Forall_cons in Hacts as [Ha Hacts].
  simpl. rewrite IH by done. by apply lookup_after_untouched.
Qed.

Lemma download_reply (token : string) (o : rm_outcome) (s : server) :
  (perform (GetDownload token o) s).1
  = match JOBS s !! token with
    | Some job =>
        if bool_decide (dirname (path job) ∈ dirs s)
        then inr (Some (SendFile (path job)
                          (or_else (filename job) (basename (path job)))))
        else inl (Exn "FileNotFoundError" "No such file or directory")
    | None => inr (Some (Json 404 "invalid or expired token"))
    end.
Proof.
  unfold perform, mbind, M_bind. rewrite download_token_unfold.
  destruct (JOBS s !! token) as [job|]; [|done].
  by destruct (bool_decide (dirname (path job) ∈ dirs s)).
Qed.

(** X3. A registered job can be downloaded as long as its directory is
    there: after a worker has registered [job] under [token] (whatever was
    there before), and after any actions that concern other tokens only,
    the download route answers with the file of [job] under its stored name
    if the directory of the file still exists; if the directory is gone
    (the generator deletes it after a failure, lines 426-427, and so does
    the cleanup of another job that shares it), [send_file] raises and the
    request fails. In both cases the token is then gone, and when the
    deletion goes through so is the job's directory. *)
Theorem registered_job_is_served (s : server) (token : string) (job : Job)
    (acts : list action) (o : rm_outcome) :
  Forall (λ a, ¬ touches token a) acts →
  let s' := run_actions acts (after (Register token job) s) in
  (dirname (path job) ∈ dirs s' →
   (perform (GetDownload token o) s').1
   = inr (Some (SendFile (path job)
                  (or_else (filename job) (basename (path job))))))
  ∧ (dirname (path job) ∉ dirs s' →
     (perform (GetDownload token o) s').1
     = inl (Exn "FileNotFoundError" "No such file or directory"))
  ∧ JOBS (after (GetDownload token o) s') !! token = None
  ∧ (o = RmOk →
     dirs (after (GetDownload token o) s')
     = dirs s' ∖ {[dirname (path job)]}).
Proof.
  intros Hacts s'.
  assert (Hjob : JOBS s' !! token = Some job).
  { unfold s'. rewrite lookup_run_untouched by done.
    rewrite JOBS_after. apply lookup_insert_eq. }
  rewrite download_reply, Hjob.
  split; [intros Hin; by rewrite bool_decide_eq_true_2|].
  split; [intros Hout; by rewrite bool_decide_eq_false_2|].
  split; [rewrite JOBS_after; apply lookup_delete_eq|].
  intros ->. unfold after, perform, mbind, M_bind.
  rewrite download_token_unfold, Hjob.
  assert (Hdirs :
    dirs (rmtree (dirname (path job)) true RmOk (set_JOBS (delete token) s')).2
    = dirs s' ∖ {[dirname (path job)]}).
  { unfold rmtree. simpl. case_bool_decide as Hin; [done|].
    simpl. apply leibniz_equiv. intros d. rewrite elem_of_difference.
    split; [|tauto]. intros Hd. split; [done|].
    by intros ->%elem_of_singleton. }
  by destruct (bool_decide (dirname (path job) ∈ dirs s')).
Qed.

(** A job is registered in the directory of the sample job. While another
    job is registered and an absent token expires, its download is served;
    once the timer of the sample job has deleted the directory, its
    download fails. *)
Lemma registered_job_is_served_witness :
  let acts := [Register "other" sample_job; TimerFires "gone" RmOk] in
  let acts' := [TimerFires "tok" RmOk] in
  let registered := after (Register "new" sample_job) sample_server in
  (Forall (λ a, ¬ touches "new" a) acts
   ∧ dirname (path sample_job) ∈ dirs (run_actions acts registered)
   ∧ (perform (GetDownload "new" RmOk) (run_actions acts registered)).1
     = inr (Some (SendFile (path sample_job) (str "a.mp3"))))
  ∧ (Forall (λ a, ¬ touches "new" a) acts'
     ∧ (dirname (path sample_job) ∉ dirs (run_actions acts' registered))
     ∧ (perform (GetDownload "new" RmOk) (run_actions acts' registered)).1
       = inl (Exn "FileNotFoundError" "No such file or directory")).
Proof.
  intros acts acts' registered.
  assert (Hacts : Forall (λ a, ¬ touches "new" a) acts).
  { repeat (apply Forall_cons_2 || apply Forall_nil_2);
      intros [Hr|Ht]; simpl in *; (discriminate || contradiction). }
  assert (Hacts' : Forall (λ a, ¬ touches "new" a) acts').
  { repeat (apply Forall_cons_2 || apply Forall_nil_2);
      intros [Hr|Ht]; simpl in *; (discriminate || contradiction). }
  assert (Hin : dirname (path sample_job) ∈ dirs (run_actions acts registered)).
  { apply (bool_decide_unpack _). vm_compute. exact I. }
  assert (Hout :
    dirname (path sample_job) ∉ dirs (run_actions acts' registered)).
  { intros Hd. apply (bool_decide_pack _) in Hd. vm_compute in Hd.
    exact Hd. }
  split.
  - split; [exact Hacts|]. split; [exact Hin|].
    exact (proj1 (registered_job_is_served sample_server "new" sample_job acts
                    RmOk Hacts) Hin).
  - split; [exact Hacts'|]. split; [exact Hout|].
    exact (proj1 (proj2 (registered_job_is_served sample_server "new"
                           sample_job acts' RmOk Hacts')) Hout).
Defined.

(** ** [fetch] from start to end *)

Lemma dirs_union_difference (t : string) (ds : gset string) :
  ({[t]} ∪ ds) ∖ {[t]} = ds ∖ {[t]}.
Proof.
  apply set_eq. intros x.
  rewrite !elem_of_difference, elem_of_union, !elem_of_singleton. tauto.
Qed.

Lemma dirs_difference_twice (t : string) (ds : gset string) :
  (ds ∖ {[t]}) ∖ {[t]} = ds ∖ {[t]}.
Proof.
  apply set_eq. intros x. rewrite !elem_of_difference. tauto.
Qed.

Lemma dirs_difference_fresh (t : string) (ds : gset string) :
  t ∉ ds → ds ∖ {[t]} = ds.
Proof.
  intros Hfresh. apply set_eq. intros x.
  rewrite elem_of_difference, elem_of_singleton.
  split; [tauto|]. intros Hx. split; [done|]. by intros ->.
Qed.



Section FetchFacts.
Context `{Lowering}.

(** [fetch] on an accepted request, statement by statement. *)
Lemma fetch_accepted (API_KEY : option string) (req : request) (w : world)
    (s : server) :
  accepted API_KEY req →
  fetch API_KEY req w s
  = let tempdir := w_tempdir w in
    let s1 := (mkdtemp tempdir s).2 in
    let after_request (reply : response) (s2 : server) :=
      match rmtree tempdir false (w_rm_after w) s2 with
      | (inr _, s3) => (inr reply, s3)
      | (inl e, s3) =>
          (inr reply, add_log (Log ERROR "cleanup error: %s" (str_exc e)) s3)
      end in
    match engine_result (w_engine w) with
    | inr d => after_request (fetch_reply tempdir d) s1
    | inl e =>
        after_request (Json 500 (str_exc e))
          (add_log (Log ERROR "download error" "")
             (rmtree tempdir true (w_rm_on_error w) s1).2)
    end.
Proof.
  intros (Hurl & Hkey & Hok). unfold fetch. rewrite Hurl, Hkey, Hok.
  cbv zeta. simpl negb. cbv iota. unfold_M. unfold lift.
  destruct (engine_result (w_engine w)) as [e|d]; simpl.
  - unfold raise.
    destruct (rmtree_ignore_errors_returns (w_tempdir w) (w_rm_on_error w)
                (set_dirs (λ ds, {[w_tempdir w]} ∪ ds) s)) as (Hret & _).
    destruct (rmtree (w_tempdir w) true (w_rm_on_error w) _) as [r s2].
    simpl in Hret. subst r. simpl.
    by destruct (rmtree (w_tempdir w) false (w_rm_after w) _) as [[e'|[]] s3].
  - by destruct (rmtree (w_tempdir w) false (w_rm_after w) _) as [[e'|[]] s3].
Qed.

Lemma rmtree_fields (d : string) (b : bool) (o : rm_outcome) (s : server) :
  JOBS (rmtree d b o s).2 = JOBS s
  ∧ app_log (rmtree d b o s).2 = app_log s
  ∧ (o = RmOk → dirs (rmtree d b o s).2 = dirs s ∖ {[d]})
  ∧ (dirs (rmtree d b o s).2 = dirs s ∨ dirs (rmtree d b o s).2 = dirs s ∖ {[d]})
  ∧ ((rmtree d b o s).1 = inr () ∨ ∃ e, (rmtree d b o s).1 = inl e ∧ b = false).
Proof.
  unfold rmtree. case_bool_decide as Hin; destruct o, b; simpl;
    repeat split; eauto; try done.
  all: intros _; apply leibniz_equiv; intros x; rewrite elem_of_difference;
    split; [|tauto]; intros Hx; split; [done|];
    by intros ->%elem_of_singleton.
Qed.

(** Not accepted: the reply is a refusal and the server is unchanged. *)
Lemma fetch_refused (API_KEY : option string) (req : request) (w : world)
    (s : server) :
  ¬ accepted API_KEY req →
  ∃ status msg, fetch API_KEY req w s = (inr (Json status msg), s)
                ∧ (status = 400%nat ∨ status = 403%nat).
Proof.
  intros Hno. unfold accepted in Hno.
  destruct (checked_route_unfold API_KEY Fetch req w s (or_intror eq_refl))
    as (Hmiss & Hkey & Hbad).
  unfold dispatch in *.
  destruct (url_missing (args_url req)) eqn:Hurl.
  { rewrite Hmiss by done. eauto. }
  destruct (api_key_check_cases API_KEY req) as [[Hnone _]|(msg & Hsome & _)].
  - destruct (is_youtube_url (args_url req)) eqn:Hok; [tauto|].
    rewrite Hbad by done. eauto.
  - rewrite (Hkey eq_refl _ Hsome). eauto.
Qed.
End FetchFacts.

(** X6. [fetch] leaves no temporary directory behind: when the deletion
    registered with [after_this_request] goes through, the directories after
    the request are those before it, without the one [mkdtemp] named;
    whatever the engine did and whether or not the request was accepted. *)
Theorem fetch_leaves_no_directory `{Lowering} (API_KEY : option string)
    (req : request) (w : world) (s : server) :
  w_rm_after w = RmOk →
  (w_tempdir w ∉ dirs s → dirs (fetch API_KEY req w s).2 = dirs s)
  ∧ (accepted API_KEY req →
     dirs (fetch API_KEY req w s).2 = dirs s ∖ {[w_tempdir w]}).
Proof.
  intros Hrm.
  assert (Hacc : accepted API_KEY req →
    dirs (fetch API_KEY req w s).2 = dirs s ∖ {[w_tempdir w]}).
  { intros Ha. rewrite (fetch_accepted _ _ _ _ Ha). cbv zeta.
    assert (Hend : ∀ reply s2,
      dirs s2 = {[w_tempdir w]} ∪ dirs s ∨ dirs s2 = dirs s ∖ {[w_tempdir w]} →
      dirs (match rmtree (w_tempdir w) false (w_rm_after w) s2 with
            | (inr _, s3) => (inr reply, s3)
            | (inl e, s3) =>
                (@inr exn response reply,
                 add_log (Log ERROR "cleanup error: %s" (str_exc e)) s3)
            end).2 = dirs s ∖ {[w_tempdir w]}).
    { intros reply s2 Hs2.
      destruct (rmtree_fields (w_tempdir w) false (w_rm_after w) s2)
        as (_ & _ & Hok & _).
      specialize (Hok Hrm).
      assert (Hgoal : dirs s2 ∖ {[w_tempdir w]} = dirs s ∖ {[w_tempdir w]}).
      { destruct Hs2 as [-> | ->];
          [apply dirs_union_difference | apply dirs_difference_twice]. }
      destruct (rmtree (w_tempdir w) false (w_rm_after w) s2) as [[e'|[]] s3];
        simpl in *; congruence. }
    destruct (engine_result (w_engine w)) as [e|d].
    - apply Hend.
      destruct (rmtree_fields (w_tempdir w) true (w_rm_on_error w)
                  (mkdtemp (w_tempdir w) s).2) as (_ & _ & _ & Hd & _).
      change (dirs (add_log (Log ERROR "download error" "")
                      (rmtree (w_tempdir w) true (w_rm_on_error w)
                         (mkdtemp (w_tempdir w) s).2).2))
        with (dirs (rmtree (w_tempdir w) true (w_rm_on_error w)
                      (mkdtemp (w_tempdir w) s).2).2).
      destruct Hd as [-> | ->]; [by left|right].
      apply dirs_union_difference.
    - apply Hend. by left. }
  split; [|done].
  intros Hfresh.
  assert (Hdec : accepted API_KEY req ∨ ¬ accepted API_KEY req).
  { unfold accepted.
    destruct (url_missing (args_url req)), (api_key_check API_KEY req),
      (is_youtube_url (args_url req)); intuition congruence. }
  destruct Hdec as [Ha|Hno].
  - rewrite (Hacc Ha). by apply dirs_difference_fresh.
  - by destruct (fetch_refused API_KEY req w s Hno) as (st & msg & -> & _).
Qed.

Lemma fetch_leaves_no_directory_witness :
  let req := {| args_url := Some (str "https://youtu.be/x");
                x_api_key := None |} in
  (w_rm_after sample_world = RmOk ∧ w_tempdir sample_world ∉ dirs sample_server)
  ∧ dirs (fetch None req sample_world sample_server).2 = dirs sample_server.
Proof.
  intros req.
  assert (Hfresh : w_tempdir sample_world ∉ dirs sample_server).
  { intros Hin. apply (bool_decide_pack _) in Hin. vm_compute in Hin.
    exact Hin. }
  split; [by split|].
  exact (proj1 (fetch_leaves_no_directory (H:=ascii_lowering) None req
                  sample_world sample_server eq_refl) Hfresh).
Defined.



(** ** Who gets a 403 *)

Lemma api_key_check_some (API_KEY : option string) (req : request)
    (reply : response) :
  api_key_check API_KEY req = Some reply →
  truthy_opt API_KEY = true ∧ x_api_key req ≠ API_KEY
  ∧ status_code reply = 403%nat.
Proof.
  unfold api_key_check.
  destruct (truthy_opt API_KEY) eqn:Hk; [|done].
  destruct (truthy_opt (x_api_key req)) eqn:Hh; simpl.
  - case_bool_decide as Heq; simpl; [done|]. by intros [= <-].
  - intros [= <-]. repeat split; try done. intros Heq. congruence.
Qed.

Lemma fetch_reply_not_403 `{Lowering} (API_KEY : option string)
    (req : request) (w : world) (s : server) (reply : response) :
  api_key_check API_KEY req = None →
  (fetch API_KEY req w s).1 = inr reply → status_code reply ≠ 403%nat.
Proof.
  intros Hkey.
  destruct (url_missing (args_url req)) eqn:Hurl.
  { unfold fetch. rewrite Hurl. by intros [= <-]. }
  destruct (is_youtube_url (args_url req)) eqn:Hok.
  - rewrite (fetch_accepted API_KEY req w s) by done. cbv zeta.
    destruct (engine_result (w_engine w)) as [e|d].
    + destruct (rmtree (w_tempdir w) false (w_rm_after w) _) as [[e'|[]] s3];
        by intros [= <-].
    + destruct (rmtree (w_tempdir w) false (w_rm_after w) _) as [[e'|[]] s3];
        intros [= <-]; by destruct d.
  - unfold fetch. rewrite Hurl, Hkey, Hok. by intros [= <-].
Qed.

(** X8. The application answers 403 exactly when a secret is configured,
    the route is [/progress] or [/fetch], the request carries a url, and its
    [X-API-Key] header is not the secret. In particular nothing is ever
    refused with 403 when no secret is configured or when the header is the
    secret, and [/download/<token>] and [/] never answer 403. *)
Theorem forbidden_iff `{Lowering} (API_KEY : option string) (r : route)
    (req : request) (w : world) (s : server) (reply : response) :
  (dispatch API_KEY r req w s).1 = inr reply →
  (status_code reply = 403%nat
   ↔ (r = Progress ∨ r = Fetch)
     ∧ url_missing (args_url req) = false
     ∧ truthy_opt API_KEY = true
     ∧ x_api_key req ≠ API_KEY).
Proof.
  intros Hreply.
  assert (Hchecked : r = Progress ∨ r = Fetch →
    status_code reply = 403%nat
    ↔ url_missing (args_url req) = false
      ∧ truthy_opt API_KEY = true ∧ x_api_key req ≠ API_KEY).
  { intros Hr.
    destruct (checked_route_unfold API_KEY r req w s Hr) as (Hmiss & Hkey & _).
    destruct (url_missing (args_url req)) eqn:Hurl.
    { rewrite Hmiss in Hreply by done. injection Hreply as <-.
      split; [done|]. by intros [? _]. }
    destruct (api_key_check API_KEY req) as [reply'|] eqn:Hcheck.
    - rewrite (Hkey eq_refl _ eq_refl) in Hreply. injection Hreply as <-.
      destruct (api_key_check_some _ _ _ Hcheck) as (? & ? & ?). tauto.
    - assert (Hpass : truthy_opt API_KEY = true → x_api_key req = API_KEY).
      { by destruct (api_key_check_cases API_KEY req)
          as [[_ ?]|(msg & Hsome & _)]; [|congruence]. }
      assert (Hno : status_code reply ≠ 403%nat).
      { destruct Hr as [-> | ->].
        - unfold dispatch, progress_sse in Hreply.
          rewrite Hurl, Hcheck in Hreply.
          destruct (is_youtube_url (args_url req)); by injection Hreply as <-.
        - by apply (fetch_reply_not_403 API_KEY req w s). }
      split; [done|]. intros (_ & Hk & Hne). by destruct Hne, Hpass. }
  destruct r as [| | |token].
  - injection Hreply as <-. split; [done|]. by intros [[?|?] _].
  - rewrite Hchecked by auto. intuition.
  - rewrite Hchecked by auto. intuition.
  - unfold dispatch in Hreply. rewrite download_token_unfold in Hreply.
    split; [|by intros [[?|?] _]].
    destruct (JOBS s !! token) as [job|]; [|by injection Hreply as <-].
    destruct (bool_decide (dirname (path job) ∈ dirs s));
      [by injection Hreply as <-|done].
Qed.

Lemma forbidden_iff_witness :
  let req := {| args_url := Some (str "https://youtu.be/x");
                x_api_key := Some "secret" |} in
  (dispatch (Some "secret") Progress req sample_world sample_server).1
  = inr (EventStream (str "https://youtu.be/x"))
  ∧ ¬ ((Progress = Progress ∨ Progress = Fetch)
       ∧ url_missing (args_url req) = false
       ∧ truthy_opt (Some "secret") = true
       ∧ x_api_key req ≠ Some "secret").
Proof.
  intros req.
  assert (Hreply :
    (dispatch (H:=ascii_lowering) (Some "secret") Progress req sample_world
       sample_server).1 = inr (EventStream (str "https://youtu.be/x")))
    by reflexivity.
  split; [exact Hreply|].
  intros Hrhs.
  apply (forbidden_iff (H:=ascii_lowering) _ _ _ _ _ _ Hreply) in Hrhs.
  discriminate Hrhs.
Defined.

(** ** The files that are delivered *)

Section DeliveredFiles.
Context `{Lowering}.

Lemma entry_member_exists (listing : list pystr) (e : entry) (m : pystr) :
  entry_member listing e = Some m → m ∈ listing ∧ is_mp3 m = true.
Proof.
  unfold entry_member, exists_in. cbv zeta.
  case_bool_decide as Hin.
  - intros [= <-]. split; [done|]. apply lower_mp3.
  - intros [Hm Hp]%find_some. apply andb_prop in Hp as [Hmp3 _].
    split; [by apply list_elem_of_In|done].
Qed.

Lemma archive_members_exist (listing : list pystr)
    (entries : list (option entry)) :
  Forall (λ m, m ∈ listing ∧ is_mp3 m = true) (archive_members listing entries)
  ∧ (length (archive_members listing entries) ≤ length entries)%nat.
Proof.
  unfold archive_members, omap.
  induction entries as [|[e|] entries [IH1 IH2]]; simpl.
  - split; [constructor|lia].
  - destruct (entry_member listing e) as [m|] eqn:Hm; simpl.
    + split; [|lia]. constructor; [|done]. by apply (entry_member_exists _ e).
    + split; [done|lia].
  - split; [done|lia].
Qed.

Lemma first_match_in (title : pystr) (mp3s : list pystr) (f0 : pystr) :
  f0 ∈ mp3s → first_match title mp3s f0 ∈ mp3s.
Proof.
  intros Hf0. unfold first_match.
  destruct (List.find (contains title) mp3s) as [f|] eqn:Hf; [|done].
  apply find_some in Hf as [Hin _]. by apply list_elem_of_In.
Qed.
End DeliveredFiles.

(** X9. The archive of a playlist. Whenever the deliverable is an
    archive, the result of the engine had a non-empty [entries], the archive
    is named after the sanitized title of the playlist, every member
    written to it is a file of the temporary directory whose lowered name
    ends in [.mp3], and there is at most one member per entry: an entry
    without a file is skipped. *)
Theorem playlist_members_exist `{Lowering} (i : info) (listing : list pystr)
    (title : pystr) (members : list pystr) :
  prepare_deliverable i listing = inr (Archive title members) →
  title = sanitize_filename (get_or (info_title i) (str "playlist"))
  ∧ Forall (λ m, m ∈ listing ∧ is_mp3 m = true) members
  ∧ ∃ e es, info_entries i = Some (e :: es)
            ∧ (length members ≤ length (e :: es))%nat.
Proof.
  unfold prepare_deliverable.
  destruct (info_entries i) as [[|e es]|] eqn:Hentries.
  - by destruct (single_output _ listing).
  - destruct (archive_members_exist listing (e :: es)) as [Hall Hlen].
    intros [= <- <-]. split; [done|]. split; [exact Hall|].
    exists e, es. split; [done|exact Hlen].
  - by destruct (single_output _ listing).
Qed.

Lemma playlist_members_exist_witness :
  let i := {| info_title := Some (str "Mix"); info_id := None;
              info_entries :=
                Some [Some {| entry_title := Some (str "Song One");
                              entry_id := Some (str "a") |};
                      None;
                      Some {| entry_title := Some (str "Song Two");
                              entry_id := Some (str "b") |};
                      Some {| entry_title := Some (str "Gone");
                              entry_id := Some (str "zz") |}] |} in
  let listing := [str "Song One.mp3"; str "b_Song_Two.mp3"; str "cover.jpg"] in
  let members := [str "Song One.mp3"; str "b_Song_Two.mp3"] in
  prepare_deliverable i listing = inr (Archive (str "Mix") members)
  ∧ Forall (λ m, m ∈ listing ∧ is_mp3 m = true) members.
Proof.
  intros i listing members.
  assert (Hc : prepare_deliverable (H:=ascii_lowering) i listing
               = inr (Archive (str "Mix") members))
    by (vm_compute; reflexivity).
  split; [exact Hc|].
  exact (proj1 (proj2 (playlist_members_exist (H:=ascii_lowering) i listing
                         _ _ Hc))).
Defined.

(** X10. For a single item, the file that is delivered is a file of the
    temporary directory and its lowered name ends in [.mp3], whichever of
    the exact name, the first match and the first candidate it is. *)
Theorem single_file_exists `{Lowering} (i : info) (listing : list pystr)
    (title file : pystr) :
  prepare_deliverable i listing = inr (Single title file) →
  file ∈ listing ∧ is_mp3 file = true.
Proof.
  unfold prepare_deliverable.
  destruct (info_entries i) as [[|e es]|]; try done.
  all: set (t := sanitize_filename _).
  all: destruct (single_output_cases t listing)
         as [[Hin ->] | [(_ & _ & ->) | (_ & f0 & rest & Hsome & ->)]];
       try done.
  all: intros [= _ <-].
  all: try (split; [done | apply lower_mp3]).
  all: assert (Hf : first_match t (f0 :: rest) f0 ∈ f0 :: rest)
         by (apply first_match_in, elem_of_cons; by left).
  all: set (f := first_match t (f0 :: rest) f0) in *.
  all: rewrite <- Hsome in Hf.
  all: apply list_elem_of_In, filter_In in Hf as [Hf1 Hf2].
  all: split; [by apply list_elem_of_In | done].
Qed.

Lemma single_file_exists_witness :
  let i := {| info_title := Some (str "My Song"); info_id := None;
              info_entries := None |} in
  let listing := [str "cover.jpg"; str "other.MP3"; str "My Song (live).mp3"] in
  prepare_deliverable i listing
  = inr (Single (str "My Song") (str "My Song (live).mp3"))
  ∧ str "My Song (live).mp3" ∈ listing.
Proof.
  intros i listing.
  assert (Hprep : prepare_deliverable (H:=ascii_lowering) i listing
                  = inr (Single (str "My Song") (str "My Song (live).mp3")))
    by (vm_compute; reflexivity).
  split; [exact Hprep|].
  exact (proj1 (single_file_exists (H:=ascii_lowering) i listing _ _ Hprep)).
Defined.

(** ** The percent of a progress event *)

Lemma percent_bounds (downloaded total : Q) :
  (0 <= downloaded)%Q → (downloaded <= total)%Q → ¬ (total == 0)%Q →
  (0 <= downloaded / total * 100)%Q ∧ (downloaded / total * 100 <= 100)%Q.
Proof.
  intros Hd Hdt Hnz.
  assert (Hpos : (0 < total)%Q).
  { assert (Hle : (0 <= total)%Q) by (eapply Qle_trans; eauto).
    apply Qle_lteq in Hle as [Hlt|Heq]; [done|]. destruct Hnz. by symmetry. }
  assert (H0 : (0 <= downloaded / total)%Q).
  { apply Qle_shift_div_l; [done|]. by rewrite Qmult_0_l. }
  assert (H1 : (downloaded / total <= 1)%Q).
  { apply Qle_shift_div_r; [done|]. by rewrite Qmult_1_l. }
  split.
  - apply Qmult_le_0_compat; [done|]. discriminate.
  - apply Qle_trans with (1 * 100)%Q; [|discriminate].
    apply Qmult_le_compat_r; [done|]. discriminate.
Qed.

(** X11. When a callback with status [downloading] reports a count of
    downloaded bytes between zero and the total it makes known, the percent
    of the event pushed lies between 0 and 100; the hook itself does not
    clamp it. *)
Theorem percent_in_range (d : hook_dict) (total : Q) :
  status d = Some "downloading" →
  known_total (total_bytes d) (total_bytes_estimate d) = Some total →
  (0 <= num_or (downloaded_bytes d) 0)%Q →
  (num_or (downloaded_bytes d) 0 <= total)%Q →
  ∃ percent,
    progress_hook d
    = ([Event "progress"
          (Downloading (Some percent) (speed d) (eta d) (hook_filename d))],
       [])
    ∧ (0 <= percent)%Q ∧ (percent <= 100)%Q.
Proof.
  intros Hs Hk Hd Hdt.
  pose proof (known_total_num_or (total_bytes d) (total_bytes_estimate d)) as Ht.
  rewrite Hk in Ht. destruct Ht as [Htotal Hnz].
  exists (num_or (downloaded_bytes d) 0 / total * 100)%Q. split.
  - unfold progress_hook, progress_hook_body, py_div.
    rewrite bool_decide_eq_true_2 by done.
    rewrite Htotal, Hnz. reflexivity.
  - apply percent_bounds; try done.
    intros Hz%Qeq_bool_iff. congruence.
Qed.

Lemma percent_in_range_witness :
  let d := {| status := Some "downloading"; total_bytes := Some 2048%Q;
              total_bytes_estimate := None;
              downloaded_bytes := Some 512%Q; speed := None; eta := None;
              hook_filename := None |} in
  (status d = Some "downloading"
   ∧ known_total (total_bytes d) (total_bytes_estimate d) = Some 2048%Q)
  ∧ ∃ percent,
      progress_hook d
      = ([Event "progress" (Downloading (Some percent) None None None)], [])
      ∧ (0 <= percent)%Q ∧ (percent <= 100)%Q.
Proof.
  intros d. split; [by split|].
  apply (percent_in_range d 2048%Q); try reflexivity; discriminate.
Defined.

(** ** The urls that are accepted *)

Lemma startswith_app (p s : pystr) : startswith p (p ++ s) = true.
Proof.
  induction p as [|c p IH]; [done|].
  simpl. by rewrite N.eqb_refl, IH.
Qed.

Lemma contains_unfold (p s : pystr) :
  contains p s
  = startswith p s || match s with [] => false | _ :: s' => contains p s' end.
Proof. by destruct s. Qed.

Lemma contains_app (p a b : pystr) : contains p (a ++ p ++ b) = true.
Proof.
  induction a as [|c a IH].
  - rewrite contains_unfold. change ([] ++ p ++ b) with (p ++ b).
    by rewrite startswith_app.
  - rewrite contains_unfold. change ((c :: a) ++ p ++ b) with (c :: a ++ p ++ b).
    cbv beta iota. rewrite IH. apply orb_true_r.
Qed.

(** X12. The check of [is_youtube_url] is a search for a substring, blind
    to the case of ASCII letters and to where the substring stands: a url
    that holds [youtube.com/watch], [youtube.com/playlist] or [youtu.be/]
    anywhere, in any mix of upper and lower case, is accepted. (Stated for
    the case folding of ASCII.) *)
Theorem is_youtube_url_substring (before needle after : pystr) :
  ascii_lower needle = str "youtube.com/watch"
  ∨ ascii_lower needle = str "youtube.com/playlist"
  ∨ ascii_lower needle = str "youtu.be/" →
  is_youtube_url (H:=ascii_lowering) (Some (before ++ needle ++ after)) = true.
Proof.
  intros Hneedle. unfold is_youtube_url.
  assert (Hne : truthy (before ++ needle ++ after) = true).
  { destruct before; [|done]. destruct needle; [|done].
    by destruct Hneedle as [Hn|[Hn|Hn]]. }
  rewrite Hne. simpl negb. cbv iota zeta.
  change (lower (before ++ needle ++ after))
    with (ascii_lower (before ++ needle ++ after)).
  unfold ascii_lower. rewrite !map_app. fold (ascii_lower needle).
  destruct Hneedle as [-> | [-> | ->]]; rewrite contains_app;
    by rewrite ?orb_true_r.
Qed.

Lemma is_youtube_url_substring_witness :
  ascii_lower (str "YouTu.BE/") = str "youtu.be/"
  ∧ is_youtube_url (H:=ascii_lowering)
      (Some (str "https://example.org/?next=" ++ str "YouTu.BE/" ++ str "x"))
    = true.
Proof.
  split; [reflexivity|].
  apply is_youtube_url_substring. right. right. reflexivity.
Defined.

(** ** The queue is first in, first out *)

Lemma delivered_app (l l' : list sse) :
  delivered (l ++ l') = delivered l ++ delivered l'.
Proof. apply List.filter_app. Qed.

Lemma progress_hook_delivered (d : hook_dict) :
  delivered (progress_hook d).1 = (progress_hook d).1.
Proof.
  unfold progress_hook, progress_hook_body, py_div.
  repeat case_bool_decide; [|done..].
  destruct (Qeq_bool (num_or (total_bytes d) (num_or (total_bytes_estimate d) 0)) 0);
    done.
Qed.

Lemma delivered_cons_id (e : sse) (rest : list sse) :
  delivered (e :: rest) = e :: rest →
  delivered [e] = [e] ∧ delivered rest = rest.
Proof.
  unfold delivered. simpl.
  destruct (match e with
            | Event _ _ => negb (is_terminal e)
            | KeepAlive => false
            end).
  - by intros [= ->].
  - intros Heq. exfalso. assert (Hlen := f_equal length Heq).
    pose proof (List.filter_length_le
      (λ e, match e with Event _ _ => negb (is_terminal e)
                       | KeepAlive => false end) rest) as Hle.
    simpl in Hlen. lia.
Qed.

Section Fifo.
Context `{Lowering}.
Variable j : job_input.

Lemma final_event_not_delivered (r : result_dict) :
  delivered [final_event j r] = [].
Proof. unfold final_event. by destruct (success r). Qed.

Lemma fifo_initial (s : server) : fifo j (initial s).
Proof. unfold fifo. simpl. done. Qed.

Lemma fifo_worker_step (st : system) :
  fifo j st → fifo j (worker_step j st).
Proof.
  intros (Hq & Hall & Hleft). unfold worker_step, fifo.
  destruct (worker st) as [|[|d pending]| | |] eqn:Hw; rewrite ?Hw; try done.
  - destruct (j_blocks j); [by rewrite Hw|].
    destruct (wrap_up_fields j st) as (Eq & _ & _ & Eg & Es & _).
    system_fields. by rewrite Eq, Eg, Es.
  - pose proof (progress_hook_delivered d) as Hd.
    destruct (progress_hook d) as [events records] eqn:Hhook.
    simpl in Hd. system_fields.
    assert (Hsame : (event_queue st ++ events)
                    ++ hook_events pending ++ [worker_finished_event]
                    = event_queue st
                    ++ hook_events (d :: pending) ++ [worker_finished_event]).
    { unfold hook_events. simpl. rewrite Hhook. simpl.
      by rewrite <- !app_assoc. }
    rewrite delivered_app, Hq, Hd, Hsame. done.
  - system_fields. by rewrite delivered_app, Hq, <- !app_assoc.
Qed.

Lemma fifo_gen_step (st : system) :
  invariant j st → fifo j st → fifo j (gen_step j st).
Proof.
  intros (_ & Hf & _ & Hloop & Hcreated & _) (Hq & Hall & Hleft).
  unfold gen_step, fifo.
  destruct (gen st) eqn:Hg; rewrite ?Hg; try done.
  - destruct (Hcreated eq_refl) as [Hw _]. rewrite Hw in Hall.
    destruct (j_start j); system_fields; rewrite ?Hw; done.
  - destruct (finished st); system_fields; done.
  - destruct (event_queue st) as [|e rest] eqn:Hqueue; system_fields;
      rewrite ?Hqueue; [|done].
    repeat split; try done.
    rewrite Hloop in Hf. destruct (worker st); try done; auto.
  - destruct (event_queue st) as [|e rest] eqn:Hqueue;
      system_fields.
    + rewrite Hqueue, delivered_app. simpl. rewrite app_nil_r.
      simpl in Hall. split; [reflexivity|]. split; [exact Hall|exact I].
    + destruct (delivered_cons_id e rest Hq) as [He Hrest].
      rewrite delivered_app, He, <- app_assoc.
      split; [exact Hrest|]. split; [exact Hall|exact I].
  - system_fields.
    by rewrite delivered_app, final_event_not_delivered, app_nil_r.
  - destruct (success (result st)); system_fields; done.
Qed.

Lemma fifo_close_step (st : system) : fifo j st → fifo j (close_step st).
Proof.
  intros (Hq & Hall & Hleft). unfold close_step, fifo.
  destruct (gen st) eqn:Hg; rewrite ?Hg; system_fields; done.
Qed.

Lemma fifo_registry_step (a : action) (st : system) :
  fifo j st → fifo j (with_srv (after a) st).
Proof. done. Qed.

Lemma fifo_run_from (schedule : list actor) (st : system) :
  invariant j st → fifo j st → fifo j (run_from j st schedule).
Proof.
  revert st. induction schedule as [|a schedule IH]; intros st Hinv Hst; [done|].
  simpl. apply IH; [by apply invariant_step|].
  destruct a; simpl;
    auto using fifo_worker_step, fifo_gen_step, fifo_close_step,
      fifo_registry_step.
Qed.

Lemma fifo_run (s : server) (schedule : list actor) :
  fifo j (run j s schedule).
Proof. apply fifo_run_from; [apply invariant_initial|apply fifo_initial]. Qed.
End Fifo.

(** X13. The events of a job are delivered first in, first out: at every
    moment the pushed events that the stream holds are a prefix of the list
    of all events the worker pushes, in the order of their pushes, none
    twice and none foreign. When the generator has run to its end, every
    event pushed by a progress callback has been delivered; at most the
    worker's last event ([worker finished]) is missing. *)
Theorem events_delivered_in_order `{Lowering} (j : job_input) (s : server)
    (schedule : list actor) :
  let st := run j s schedule in
  (∃ later, pushed_by_worker j = delivered (stream st) ++ later)
  ∧ (gen st = GReturned →
     delivered (stream st) = hook_events (j_hooks j)
     ∨ delivered (stream st) = pushed_by_worker j).
Proof.
  intros st. destruct (fifo_run j s schedule) as (_ & Hall & Hleft).
  fold st in Hall, Hleft. split; [eauto|].
  intros Hg. rewrite Hg in Hleft.
  destruct Hleft as [Hnone|Hone].
  - right. rewrite Hnone, app_nil_r in Hall. done.
  - left. rewrite Hone in Hall.
    change (pushed_by_worker j)
      with (hook_events (j_hooks j) ++ [worker_finished_event]) in Hall.
    by apply app_inj_tail in Hall as [? _].
Qed.

Lemma events_delivered_in_order_witness :
  let st := run sample_input sample_server racing_schedule in
  gen st = GReturned
  ∧ (delivered (stream st) = hook_events (j_hooks sample_input)
     ∨ delivered (stream st) = pushed_by_worker sample_input).
Proof.
  intros st.
  assert (Hg : gen st = GReturned) by (vm_compute; reflexivity).
  split; [exact Hg|].
  exact (proj2 (events_delivered_in_order (H:=ascii_lowering) sample_input
                  sample_server racing_schedule) Hg).
Defined.

(** ** What a job does to the server *)

Lemma add_logs_fields (records : list log_entry) (s : server) :
  JOBS (foldl (λ s r, add_log r s) s records) = JOBS s
  ∧ dirs (foldl (λ s r, add_log r s) s records) = dirs s.
Proof.
  revert s. induction records as [|r records IH]; intros s; [done|].
  simpl. by destruct (IH (add_log r s)) as [-> ->].
Qed.

Section LifecycleFacts.
Context `{Lowering}.
Variable j : job_input.
Variable s : server.

Lemma wrap_up_srv (st : system) :
  JOBS (srv (wrap_up j st))
  = match engine_result (j_engine j) with
    | inr d => <[j_token j := registered_job j d]> (JOBS (srv st))
    | inl _ => JOBS (srv st)
    end
  ∧ dirs (srv (wrap_up j st)) = dirs (srv st).
Proof.
  unfold wrap_up, worker_except.
  by destruct (engine_result (j_engine j)); [|destruct (j_timer j)].
Qed.

Lemma started_of_flag (st : system) :
  invariant j st → finished st = true → worker st ≠ WNotStarted.
Proof.
  intros (_ & Hf & _) Hfin Hw. rewrite Hw in Hf. simpl in Hf. congruence.
Qed.

(** The registry under the job's token. *)
Lemma job_kept_step (a : actor) (st : system) :
  invariant j st →
  leaves (j_token j) a → job_kept j s st → job_kept j s (step j a st).
Proof.
  intros (_ & _ & _ & _ & Hcreated & _) Ha Hjob. unfold job_kept in *.
  destruct a as [| | |a]; simpl.
  - unfold worker_step.
    destruct (worker st) as [|[|d pending]| | |] eqn:Hw; rewrite ?Hw;
      try done.
    + destruct (j_blocks j); [by rewrite Hw|].
      destruct (wrap_up_srv st) as [Ej _]. system_fields. rewrite Ej.
      unfold job_at in *. simpl in *.
      destruct (engine_result (j_engine j)); [done|].
      apply lookup_insert_eq.
    + destruct (progress_hook d) as [events records].
      destruct (add_logs_fields records (srv st)) as [Ej _].
      system_fields. by rewrite Ej.
  - unfold gen_step.
    destruct (gen st) eqn:Hg; repeat case_match; system_fields;
      rewrite ?Hg; try done.
    + destruct (Hcreated eq_refl) as [Hw _]. by rewrite Hw in Hjob.
    + by destruct (rmtree_fields (j_tempdir j) true (j_rm j) (srv st))
        as (-> & _).
  - unfold close_step. destruct (gen st); by system_fields.
  - system_fields. by rewrite lookup_after_untouched.
Qed.

Lemma job_kept_run_from (schedule : list actor) (st : system) :
  Forall (leaves (j_token j)) schedule →
  invariant j st → job_kept j s st → job_kept j s (run_from j st schedule).
Proof.
  revert st. induction schedule as [|a schedule IH]; intros st Hs Hinv Hst;
    [done|].
  apply Forall_cons in Hs as [Ha Hs].
  simpl. apply IH; [done|by apply invariant_step|]. by apply job_kept_step.
Qed.

Lemma job_kept_run (schedule : list actor) :
  Forall (leaves (j_token j)) schedule → job_kept j s (run j s schedule).
Proof.
  intros Hs. apply job_kept_run_from; [done|apply invariant_initial|done].
Qed.

(** The directories. *)
Lemma dirs_kept_initial : dirs_kept j s (initial s).
Proof. by unfold dirs_kept, dirs_at. Qed.

Lemma dirs_kept_worker_step (st : system) :
  invariant j st → dirs_kept j s st → dirs_kept j s (worker_step j st).
Proof.
  intros Hinv (Hfin & Hdirs).
  pose proof Hinv as (_ & Hf & _).
  unfold worker_step.
  destruct (worker st) as [|[|d pending]| | |] eqn:Hw.
  - by split.
  - destruct (j_blocks j); [by split|].
    destruct (wrap_up_fields j st) as (_ & Ef & _ & Eg & _ & _).
    destruct (wrap_up_srv st) as (_ & Ed).
    unfold dirs_kept, dirs_at in *.
    rewrite Hw in *. system_fields. rewrite Eg, Ef, Ed, Hdirs.
    simpl in *.
    destruct (gen st); try done; congruence.
  - destruct (progress_hook d) as [events records].
    destruct (add_logs_fields records (srv st)) as [_ Ed].
    unfold dirs_kept, dirs_at in *.
    rewrite Hw in *. system_fields. by rewrite Ed.
  - unfold dirs_kept, dirs_at in *. rewrite Hw in *. simpl in *.
    by destruct (gen st).
  - unfold dirs_kept, dirs_at in *. rewrite Hw in *. by system_fields.
  - by split.
Qed.

Lemma dirs_kept_gen_step (st : system) :
  invariant j st → dirs_kept j s st → dirs_kept j s (gen_step j st).
Proof.
  intros Hinv (Hfin & Hdirs).
  pose proof Hinv as (_ & Hf & _ & Hloop & Hcreated & _).
  unfold gen_step.
  destruct (gen st) eqn:Hg.
  - unfold dirs_kept, dirs_at in *. rewrite Hg in *.
    destruct (j_start j) eqn:Hs; system_fields; rewrite ?Hs;
      unfold mkdtemp; simpl; by rewrite ?Hdirs.
  - unfold dirs_kept, dirs_at in *. rewrite Hg in *.
    destruct (finished st); by system_fields.
  - unfold dirs_kept, dirs_at in *. rewrite Hg in *.
    destruct (event_queue st); by system_fields.
  - unfold dirs_kept, dirs_at in *. rewrite Hg in *.
    destruct (event_queue st); by system_fields.
  - unfold dirs_kept, dirs_at in *. rewrite Hg in *. by system_fields.
  - unfold dirs_kept, dirs_at in *. rewrite Hg in *. by system_fields.
  - unfold dirs_kept, dirs_at in *. rewrite Hg in *.
    destruct (success (result st)) eqn:Hsucc; system_fields; rewrite ?Hsucc;
      [done|].
    destruct (rmtree_fields (j_tempdir j) true (j_rm j) (srv st))
      as (_ & _ & Eok & _).
    split; [done|].
    assert (Hin : j_tempdir j ∈ dirs (srv st)).
    { rewrite Hdirs. apply elem_of_union; left; by apply elem_of_singleton. }
    destruct (j_rm j) as [|e] eqn:Hrm.
    + by rewrite (Eok eq_refl), Hdirs.
    + unfold rmtree. rewrite bool_decide_eq_true_2 by done.
      simpl. by rewrite Hdirs.
  - unfold dirs_kept. by rewrite Hg.
  - unfold dirs_kept. by rewrite Hg.
  - unfold dirs_kept. by rewrite Hg.
Qed.

Lemma dirs_kept_close_step (st : system) :
  invariant j st → dirs_kept j s st → dirs_kept j s (close_step st).
Proof.
  intros Hinv (Hfin & Hdirs).
  pose proof Hinv as (_ & _ & _ & _ & Hcreated & Hstart & _).
  unfold close_step.
  destruct (gen st) eqn:Hg; try (unfold dirs_kept; by rewrite Hg).
  - destruct (Hcreated eq_refl) as [Hw _].
    unfold dirs_kept, dirs_at in *. rewrite Hg in *.
    system_fields. by rewrite Hw.
  - assert (Hw : worker st ≠ WNotStarted).
    { intros Hw. by destruct (Hstart Hw) as [?|[?|?]]. }
    unfold dirs_kept, dirs_at in *. rewrite Hg in *.
    system_fields. simpl. by destruct (worker st).
  - pose proof (started_of_flag st Hinv Hfin) as Hw.
    unfold dirs_kept, dirs_at in *. rewrite Hg in *.
    system_fields. simpl. by destruct (worker st).
Qed.

Lemma dirs_kept_run_from (schedule : list actor) (st : system) :
  Forall of_the_job schedule →
  invariant j st → dirs_kept j s st → dirs_kept j s (run_from j st schedule).
Proof.
  revert st. induction schedule as [|a schedule IH]; intros st Hs Hinv Hst;
    [done|].
  apply Forall_cons in Hs as [Ha Hs].
  simpl. apply IH; [done|by apply invariant_step|].
  destruct a; simpl; [| | |done];
    auto using dirs_kept_worker_step, dirs_kept_gen_step,
      dirs_kept_close_step.
Qed.

Lemma dirs_kept_run (schedule : list actor) :
  Forall of_the_job schedule → dirs_kept j s (run j s schedule).
Proof.
  intros Hs.
  apply dirs_kept_run_from; [done|apply invariant_initial|apply dirs_kept_initial].
Qed.
End LifecycleFacts.

(** X14. A client that disconnects does not stop the worker. Whatever has
    happened so far (disconnect included), once the generator has started
    the worker and provided the engine call ends, the worker alone runs to
    its exit: it sets the flag and fills [result]. When the engine and the
    search of the file succeeded, its job is then in the registry under the
    job's token, with the file in the job's directory and an expiry ten
    minutes after registration, as long as no timer and no download has
    taken the token meanwhile; when they failed, the worker has left the
    token as it was. *)
Theorem worker_survives_disconnect `{Lowering} (j : job_input) (s : server)
    (schedule : list actor) :
  worker (run j s schedule) ≠ WNotStarted →
  j_blocks j = false →
  ∃ k,
    let st := run j s (schedule ++ repeat Worker k) in
    worker st = WExited
    ∧ finished st = true
    ∧ result st = final_result j
    ∧ (Forall (leaves (j_token j)) schedule →
       JOBS (srv st) !! j_token j
       = match engine_result (j_engine j) with
         | inr d => Some (registered_job j d)
         | inl _ => JOBS s !! j_token j
         end).
Proof.
  intros Hstarted Hreturns.
  exists (worker_fuel (worker (run j s schedule))).
  destruct (worker_runs_out j _ (run j s schedule) Hreturns Hstarted (le_n _))
    as [Hw _].
  unfold run in *. rewrite run_from_app.
  set (k := worker_fuel _) in *.
  set (st := run_from j (run_from j (initial s) schedule) _) in *.
  assert (Hinv : invariant j st).
  { apply invariant_run_from, invariant_run_from, invariant_initial. }
  destruct Hinv as (_ & Hf & Hr & _).
  rewrite Hw in Hf, Hr. cbv zeta.
  split; [done|]. split; [done|]. split; [done|].
  intros Hleaves.
  assert (Hjob : job_kept j s st).
  { unfold st. rewrite <- run_from_app. apply job_kept_run.
    apply Forall_app. split; [done|].
    apply Forall_forall. intros x Hx%list_elem_of_In%repeat_spec. by subst x. }
  unfold job_kept in Hjob. by rewrite Hjob, Hw.
Qed.

Lemma worker_survives_disconnect_witness :
  let schedule := disconnecting_schedule ++ [Registry (TimerFires "tok" RmOk)] in
  (gen (run sample_input sample_server schedule) = GClosed
   ∧ worker (run sample_input sample_server schedule) ≠ WNotStarted
   ∧ j_blocks sample_input = false
   ∧ Forall (leaves (j_token sample_input)) schedule)
  ∧ ∃ k,
      let st := run sample_input sample_server (schedule ++ repeat Worker k) in
      worker st = WExited
      ∧ JOBS (srv st) !! "tok3"
        = Some {| path := {| dirname := "/tmp/ydl_3"; basename := str "a.mp3" |};
                  filename := str "a.mp3";
                  expires_at := (0 + AUTO_CLEANUP_SECONDS)%Q |}.
Proof.
  intros schedule.
  assert (Hstarted :
    worker (run sample_input sample_server schedule) ≠ WNotStarted)
    by (vm_compute; discriminate).
  assert (Hleaves : Forall (leaves (j_token sample_input)) schedule).
  { repeat (apply Forall_cons_2 || apply Forall_nil_2); try exact I.
    intros [Hr|Ht]; simpl in *; (discriminate || contradiction). }
  split.
  { split; [vm_compute; reflexivity|]. split; [exact Hstarted|].
    split; [reflexivity|exact Hleaves]. }
  destruct (worker_survives_disconnect (H:=ascii_lowering) sample_input
              sample_server schedule Hstarted eq_refl)
    as (k & Hw & _ & _ & Hjobs).
  exists k. cbv zeta in *. split; [exact Hw|].
  pose proof (Hjobs Hleaves) as Hjob.
  change (j_token sample_input) with "tok3" in Hjob.
  rewrite Hjob. vm_compute. reflexivity.
Defined.

(** X15. The temporary directory of a job, as long as no timer and no
    download interferes. Before the generator starts there is none, and none
    is made when [mkdtemp] raises; when the thread cannot be started the
    directory is made and stays. From the start of the worker on, the
    directory exists as long as the generator has not run to its end; in
    particular a generator closed by a disconnect never deletes it, also
    when the job fails. When the generator runs to its end, the directory
    stays on success (it holds the registered file) and on failure it is
    deleted, if the deletion goes through. *)
Theorem tempdir_lifecycle `{Lowering} (j : job_input) (s : server)
    (schedule : list actor) :
  Forall of_the_job schedule →
  let st := run j s schedule in
  (worker st = WNotStarted → gen st ≠ GRaised → dirs (srv st) = dirs s)
  ∧ (gen st = GRaised →
     dirs (srv st) = match j_start j with
                     | ThreadStartRaises _ => {[j_tempdir j]} ∪ dirs s
                     | _ => dirs s
                     end)
  ∧ (worker st ≠ WNotStarted → gen st ≠ GReturned →
     dirs (srv st) = {[j_tempdir j]} ∪ dirs s)
  ∧ (gen st = GReturned →
     dirs (srv st)
     = match try_result j, j_rm j with
       | inl _, RmOk => dirs s ∖ {[j_tempdir j]}
       | _, _ => {[j_tempdir j]} ∪ dirs s
       end).
Proof.
  intros Hjob st.
  pose proof (invariant_run j s schedule) as Hinv.
  destruct (dirs_kept_run j s schedule Hjob) as (Hfin & Hdirs).
  fold st in Hinv, Hfin, Hdirs. rewrite Hdirs. unfold dirs_at.
  pose proof Hinv as (_ & Hf & Hr & _ & _ & Hstart & Hraised & _).
  split; [|split; [|split]].
  - intros Hw Hg. rewrite Hw. by destruct (Hstart Hw) as [->|[->|?]].
  - by intros ->.
  - intros Hw Hg.
    pose proof (raised_not_started j st Hinv Hw) as Hok.
    destruct Hinv as (_ & _ & _ & _ & Hcreated & _).
    destruct (gen st) eqn:Hgen; try done.
    + by destruct (Hcreated eq_refl).
    + by destruct (worker st).
  - intros Hg. rewrite Hg in Hfin |- *.
    assert (Hres : result st = final_result j).
    { rewrite Hr. rewrite Hfin in Hf. by destruct (worker st). }
    rewrite Hres. unfold final_result.
    destruct (try_result j) as [e|d]; simpl; destruct (j_rm j); try done.
    apply dirs_union_difference.
Qed.

(** The engine fails, the client has left after the first keep-alive line
    and the worker has run to its exit: the directory is still there. *)
Lemma tempdir_lifecycle_witness :
  let j := {| j_url := str "https://youtu.be/x"; j_tempdir := "/tmp/ydl_4";
              j_token := "tok4"; j_start := Started; j_hooks := [];
              j_blocks := false;
              j_engine := EngineRaises (Exn "DownloadError" "Video unavailable");
              j_now := 0; j_timer := None; j_rm := RmOk |} in
  let schedule := disconnecting_schedule ++ [Worker; Worker; Worker] in
  let st := run j sample_server schedule in
  (Forall of_the_job schedule ∧ worker st ≠ WNotStarted ∧ gen st ≠ GReturned)
  ∧ worker st = WExited ∧ success (result st) = false
  ∧ dirs (srv st) = {[ "/tmp/ydl_4" ]} ∪ dirs sample_server.
Proof.
  intros j schedule st.
  assert (Hjob : Forall of_the_job schedule).
  { repeat (apply Forall_cons_2 || apply Forall_nil_2); exact I. }
  assert (Hw : worker st ≠ WNotStarted) by (vm_compute; discriminate).
  assert (Hg : gen st ≠ GReturned) by (vm_compute; discriminate).
  split; [by repeat split|]. split; [vm_compute; reflexivity|].
  split; [vm_compute; reflexivity|].
  destruct (tempdir_lifecycle (H:=ascii_lowering) j sample_server schedule Hjob)
    as (_ & _ & Hstay & _).
  exact (Hstay Hw Hg).
Defined.

(** ** What the terminal event tells *)

Section TerminalEvent.
Context `{Lowering}.
Variable j : job_input.

Lemma terminal_in_stream (s : server) (schedule : list actor) (e : sse) :
  e ∈ stream (run j s schedule) → is_terminal e = true →
  e = outcome_event j ∧ wrapped_up (worker (run j s schedule)) = true.
Proof.
  intros Hin Hterm. set (st := run j s schedule) in *.
  pose proof (invariant_run j s schedule) as Hinv. fold st in Hinv.
  pose proof (terminal_after_flag_run j s schedule) as Hflag. fold st in Hflag.
  assert (Hnot : ∀ body, terminal_free body = true → e ∉ body).
  { intros body Hbody Hb. unfold terminal_free in Hbody.
    rewrite forallb_forall in Hbody.
    apply list_elem_of_In, Hbody in Hb. by rewrite Hterm in Hb. }
  split.
  - destruct Hinv as (_ & _ & _ & _ & _ & _ & _ & Hshape).
    assert (Hcases : ∃ body, terminal_free body = true
              ∧ (stream st = body ∨ stream st = body ++ [outcome_event j])).
    { destruct (gen st); simpl in Hshape;
        try (by exists (stream st); auto); try exact Hshape;
        destruct Hshape as (body & -> & Hbody); eauto. }
    destruct Hcases as (body & Hbody & [Hs|Hs]); rewrite Hs in Hin.
    + by destruct (Hnot body Hbody).
    + apply elem_of_app in Hin as [Hin|Hin]; [by destruct (Hnot body Hbody)|].
      by apply list_elem_of_singleton in Hin.
  - destruct Hflag as [Hfree|Hfin]; [by destruct (Hnot _ Hfree)|].
    destruct Hinv as (_ & Hf & _). rewrite Hfin in Hf.
    by destruct (worker st).
Qed.
End TerminalEvent.

(** X17. The terminal event tells the truth. A [done] event in the stream
    carries the token of the job and the name of its file, the [try] block
    of the worker has succeeded, and the job is in the registry under this
    token as long as no timer and no download has taken the token
    meanwhile: the download link the client builds from the event is good
    until then. An [error] event in the stream carries the text of the
    exception that ended the [try] block (or [unknown error] for an empty
    text). When the exception came from the engine or from the search of the
    file, the worker has left the token as it was; when it came from arming
    the timer, the job is registered although the client is told of an
    error. *)
Theorem terminal_event_is_truthful `{Lowering} (j : job_input) (s : server)
    (schedule : list actor) :
  let st := run j s schedule in
  (∀ token name,
     Event "done" (Done token name) ∈ stream st →
     ∃ d, try_result j = inr d
          ∧ token = j_token j
          ∧ name = Some (filename (registered_job j d))
          ∧ (Forall (leaves (j_token j)) schedule →
             JOBS (srv st) !! token = Some (registered_job j d)))
  ∧ (∀ msg,
       Event "error" (Failed msg) ∈ stream st →
       ∃ e, try_result j = inl e
            ∧ msg = (if String.eqb (str_exc e) "" then "unknown error"
                     else str_exc e)
            ∧ (Forall (leaves (j_token j)) schedule →
               JOBS (srv st) !! j_token j
               = match engine_result (j_engine j) with
                 | inr d => Some (registered_job j d)
                 | inl _ => JOBS s !! j_token j
                 end)).
Proof.
  intros st.
  assert (Hjobs : Forall (leaves (j_token j)) schedule →
                  wrapped_up (worker st) = true →
                  JOBS (srv st) !! j_token j
                  = match engine_result (j_engine j) with
                    | inr d => Some (registered_job j d)
                    | inl _ => JOBS s !! j_token j
                    end).
  { intros Hleaves Hw. pose proof (job_kept_run j s schedule Hleaves) as Hjob.
    unfold job_kept, job_at in Hjob. fold st in Hjob. by rewrite Hw in Hjob. }
  split.
  - intros token name Hin.
    destruct (terminal_in_stream j s schedule _ Hin eq_refl) as [Heq Hw].
    fold st in Hw. unfold outcome_event in Heq.
    destruct (try_result j) as [e|d] eqn:Htry; [done|].
    injection Heq as Htoken Hname. subst token name. exists d.
    repeat split. intros Hleaves. rewrite (Hjobs Hleaves Hw).
    unfold try_result in Htry.
    destruct (engine_result (j_engine j)) as [e'|d']; [done|].
    destruct (j_timer j); [done|]. by injection Htry as ->.
  - intros msg Hin.
    destruct (terminal_in_stream j s schedule _ Hin eq_refl) as [Heq Hw].
    fold st in Hw. unfold outcome_event in Heq.
    destruct (try_result j) as [e|d] eqn:Htry; [|done].
    injection Heq as Hmsg. subst msg. exists e.
    repeat split. intros Hleaves. by apply Hjobs.
Qed.

(** Under the racing schedule, while the timer of another job fires, the
    stream of the sample job holds [done] and the registry holds the job. *)
Lemma terminal_event_is_truthful_witness :
  let schedule := racing_schedule ++ [Registry (TimerFires "tok" RmOk)] in
  let st := run sample_input sample_server schedule in
  (Event "done" (Done "tok3" (Some (str "a.mp3"))) ∈ stream st
   ∧ Forall (leaves (j_token sample_input)) schedule)
  ∧ ∃ job, JOBS (srv st) !! "tok3" = Some job
           ∧ filename job = str "a.mp3"
           ∧ dirname (path job) = "/tmp/ydl_3".
Proof.
  intros schedule st.
  assert (Hin : Event "done" (Done "tok3" (Some (str "a.mp3"))) ∈ stream st).
  { change (stream st) with
      [Event "progress" (StatusNote "download finished, converting...");
       Event "done" (Done "tok3" (Some (str "a.mp3")))].
    apply elem_of_cons. right. by apply list_elem_of_singleton. }
  assert (Hleaves : Forall (leaves (j_token sample_input)) schedule).
  { repeat (apply Forall_cons_2 || apply Forall_nil_2); try exact I.
    intros [Hr|Ht]; simpl in *; (discriminate || contradiction). }
  split; [exact (conj Hin Hleaves)|].
  destruct (terminal_event_is_truthful (H:=ascii_lowering) sample_input
              sample_server schedule) as [Hdone _].
  destruct (Hdone _ _ Hin) as (d & Hd & _ & Hname & Hjob).
  exists (registered_job sample_input d). split; [exact (Hjob Hleaves)|].
  split; [|reflexivity].
  injection Hname as Hn. symmetry. exact Hn.
Defined.
